(** * llm-gateway: the rate governor, the selector and the dispatcher of [app.py]

    A shallow embedding of [src/app.py].  The class [RateLimiter] becomes a
    record of two finite maps and one function per method; the module-level
    functions [get_api_provider], [handle_post_request],
    [handle_streaming_request] and [handle_non_streaming_request] become
    computations in a small state-and-exception monad over the limiter and
    the wall clock.

    Conventions.
    - A [datetime] is an integer number of microseconds ([Z]); a [timedelta]
      is a difference of two of them.
    - Every call of [datetime.now()] is an explicit reading: the methods of
      [RateLimiter] take it as the argument [now], the request handlers draw
      it from a clock oracle [clock : nat -> Z] indexed by the number of
      readings made so far.
    - A Python [dict] whose iteration order is observed ([MODEL_CONFIG] and
      the bindings of a model) is an association list; one that is only
      looked up by key ([counters], [error_counters], [API_PROVIDER]) is a
      [gmap].
    - A raised exception is a value of [exn]; an operation that can raise
      returns [exn + A] next to the state it leaves behind. *)

From stdpp Require Import gmap strings list fin_maps pretty.
From Stdlib Require Import ZArith QArith.

#[local] Open Scope string_scope.
#[local] Open Scope Z_scope.

(** ** Python values the code manipulates *)

(** The exceptions that the modelled code raises or catches. *)
Inductive exn : Type :=
| HTTPException (status_code : Z) (detail : string)  (* fastapi.HTTPException *)
| HTTPStatusError (status_code : Z) (text : string)  (* httpx.HTTPStatusError *)
| TransportError (msg : string)                      (* httpx connect / read / timeout *)
| KeyError (key : string)
| AttributeError (msg : string)
| TypeError (msg : string)
| UnboundLocalError (name : string)
| ValueError (msg : string)
| UnicodeDecodeError
| JSONDecodeError.

(** [isinstance(e, HTTPException)] *)
Definition is_HTTPException (e : exn) : bool :=
  match e with HTTPException _ _ => true | _ => false end.

(** A decoded JSON document, as [json.loads] / [request.json()] return it. *)
#[local] Set Warnings "-register-all".
Inductive json : Type :=
| JNull
| JBool (b : bool)
| JNum (q : Q)
| JStr (s : string)
| JArr (items : list json)
| JObj (fields : list (string * json)).
#[local] Set Warnings "register-all".

(** Python truthiness of a decoded JSON value. *)
Definition truthy (v : json) : bool :=
  match v with
  | JNull => false
  | JBool b => b
  | JNum q => negb (Qnum q =? 0)
  | JStr s => negb (String.eqb s "")
  | JArr l => match l with [] => false | _ => true end
  | JObj l => match l with [] => false | _ => true end
  end.

(** [d.get(key)] and [key in d] on a dict kept in insertion order. *)
Fixpoint assoc {A : Type} (key : string) (d : list (string * A)) : option A :=
  match d with
  | [] => None
  | (k, v) :: d' => if String.eqb k key then Some v else assoc key d'
  end.

(** [sum(xs)]: Python adds from the left, starting at 0. *)
Definition py_sum (xs : list Z) : Z := foldl Z.add 0 xs.

(** [max(xs)] on a non-empty sequence ([ValueError] on an empty one never
    arises in the code: the caller tests emptiness first). *)
Definition py_max (x : Z) (xs : list Z) : Z := foldl Z.max x xs.

Arguments py_sum : simpl never.
Arguments py_max : simpl never.

(** ** Time *)

Definition timedelta_minutes (m : Z) : Z := m * 60000000.
Definition timedelta_hours (h : Z) : Z := h * 3600000000.

Arguments timedelta_minutes : simpl never.
Arguments timedelta_hours : simpl never.

(** ** Configuration ([config.yaml]) *)

(** [limits]: each of the four keys may be absent. *)
Record Limits : Type := mkLimits {
  limit_rpm : option Z;
  limit_tpm : option Z;
  limit_tpr : option Z;
  limit_rpd : option Z
}.

(** [limits = {}] *)
Definition no_limits : Limits := mkLimits None None None None.

(** One entry of [api_provider]. [limits] itself may be absent
    ([api_provider_cfg.get('limits', {})]); a null or empty [api_key] is
    [None]. *)
Record Provider : Type := mkProvider {
  base_url : string;
  api_key : option string;
  limits : option Limits
}.

(** One binding [model_config[model][provider]]. *)
Record Binding : Type := mkBinding {
  enable : option bool;
  alias : option string
}.

(** ** class RateLimiter *)

(** [{'rpm': deque(), 'tpm': deque(), 'rpd': int}]; a deque entry is
    [(timestamp, amount)]. *)
Record Counter : Type := mkCounter {
  rpm : list (Z * Z);
  tpm : list (Z * Z);
  rpd : Z
}.

Record RateLimiter : Type := mkRateLimiter {
  counters : gmap string Counter;
  error_counters : gmap string (list (Z * Z))
}.

(** [RateLimiter()] *)
Definition RateLimiter_init : RateLimiter := mkRateLimiter ∅ ∅.

Definition new_counter : Counter := mkCounter [] [] 0.

(** [while q and (now - q[0][0]) > timedelta(minutes=1): q.popleft()] *)
Fixpoint popleft_expired (now : Z) (q : list (Z * Z)) : list (Z * Z) :=
  match q with
  | [] => []
  | (ts, _) :: q' =>
      if timedelta_minutes 1 <? now - ts then popleft_expired now q' else q
  end.

Definition prune_counter (now : Z) (c : Counter) : Counter :=
  mkCounter (popleft_expired now (rpm c)) (popleft_expired now (tpm c)) (rpd c).

(** The four checks of [check_limit] on the pruned counter, in the order of
    the source; each answers with the reason of its rejection. *)
Definition check_rpm (c : Counter) (lim : Limits) : option string :=
  match limit_rpm lim with
  | Some l => if l <=? Z.of_nat (length (rpm c))
              then Some "RPM limit exceeded" else None
  | None => None
  end.

Definition check_tpm (c : Counter) (lim : Limits) (token_count : Z)
  : option string :=
  match limit_tpm lim with
  | Some l => let current_tpm := py_sum (map snd (tpm c)) in
              if l <? current_tpm + token_count
              then Some "TPM limit exceeded" else None
  | None => None
  end.

Definition check_tpr (lim : Limits) (token_count : Z) : option string :=
  match limit_tpr lim with
  | Some l => if l <? token_count
              then Some ("Token per request limit exceeded: "
                           +:+ pretty token_count +:+ " > " +:+ pretty l)
              else None
  | None => None
  end.

Definition check_rpd (c : Counter) (lim : Limits) : option string :=
  match limit_rpd lim with
  | Some l => if l <=? rpd c then Some "RPD limit exceeded" else None
  | None => None
  end.

Definition check_counter (c : Counter) (lim : Limits) (token_count : Z)
  : bool * string :=
  match check_rpm c lim with
  | Some reason => (false, reason)
  | None =>
  match check_tpm c lim token_count with
  | Some reason => (false, reason)
  | None =>
  match check_tpr lim token_count with
  | Some reason => (false, reason)
  | None =>
  match check_rpd c lim with
  | Some reason => (false, reason)
  | None => (true, "")
  end end end end.

(** [check_limit(self, api_provider, limits, token_count=0)].  The entry of
    the provider is created when missing, both deques are pruned in place,
    and the pruned state is what the checks read; it stays behind whatever
    the answer is. *)
Definition check_limit (self : RateLimiter) (api_provider : string)
    (lim : Limits) (token_count : Z) (now : Z)
  : (bool * string) * RateLimiter :=
  let c := match counters self !! api_provider with
           | Some c => c
           | None => new_counter
           end in
  let c' := prune_counter now c in
  (check_counter c' lim token_count,
   mkRateLimiter (<[api_provider := c']> (counters self)) (error_counters self)).

(** [increment(self, api_provider, token_count=0)]: the first subscript
    [self.counters[api_provider]] raises [KeyError] before anything is
    written when the provider has no entry. *)
Definition increment (self : RateLimiter) (api_provider : string)
    (token_count : Z) (now : Z) : exn + RateLimiter :=
  match counters self !! api_provider with
  | None => inl (KeyError api_provider)
  | Some c =>
      let c' := mkCounter (rpm c ++ [(now, 1)])%list
                          (tpm c ++ [(now, token_count)])%list
                          (rpd c + 1) in
      inr (mkRateLimiter (<[api_provider := c']> (counters self))
                         (error_counters self))
  end.

(** [reset_daily_counts(self)] *)
Definition reset_daily_counts (self : RateLimiter) : RateLimiter :=
  mkRateLimiter ((fun c => mkCounter (rpm c) (tpm c) 0) <$> counters self)
                (error_counters self).

(** [[(timestamp, count) for ... if timestamp > cutoff_time]] with
    [cutoff_time = now - timedelta(hours=24)]. *)
Definition recent_errors (now : Z) (evs : list (Z * Z)) : list (Z * Z) :=
  List.filter (fun e => now - timedelta_hours 24 <? fst e) evs.

Arguments recent_errors : simpl never.

(** [increment_error(self, api_provider)]; returns the new total. *)
Definition increment_error (self : RateLimiter) (api_provider : string)
    (now : Z) : Z * RateLimiter :=
  let evs := match error_counters self !! api_provider with
             | Some evs => evs
             | None => []
             end in
  let evs' := recent_errors now evs in
  let current_error_count := py_sum (map snd evs') in
  (current_error_count + 1,
   mkRateLimiter (counters self)
                 (<[api_provider := (evs' ++ [(now, 1)])%list]> (error_counters self))).

(** [is_error_limited(self, api_provider)].  [int(x.total_seconds() / 60)]
    is the quotient of the microsecond count by 60 000 000 rounded towards
    zero; the two float divisions of the source give that same integer for
    any delay that a 53-bit mantissa holds to the microsecond. *)
Definition is_error_limited (self : RateLimiter) (api_provider : string)
    (now : Z) : (bool * Z) * RateLimiter :=
  match error_counters self !! api_provider with
  | None => ((false, 0), self)
  | Some [] => ((false, 0), self)
  | Some evs =>
      let self' := mkRateLimiter (counters self)
                     (<[api_provider := recent_errors now evs]>
                        (error_counters self)) in
      match recent_errors now evs with
      | [] => ((false, 0), self')
      | (t0, c0) :: rest =>
          let current_error_count := py_sum (map snd ((t0, c0) :: rest)) in
          let latest_error_time := py_max t0 (map fst rest) in
          let limit_duration := Z.min (current_error_count * 10) (24 * 60) in
          let limit_end_time :=
            latest_error_time + timedelta_minutes limit_duration in
          if now <? limit_end_time
          then ((true, Z.quot (limit_end_time - now) (timedelta_minutes 1)),
                self')
          else ((false, 0), self')
      end
  end.

(** [cleanup_error_counters(self)] *)
Definition cleanup_error_counters (self : RateLimiter) (now : Z)
  : RateLimiter :=
  mkRateLimiter (counters self)
    (omap (fun evs => match recent_errors now evs with
                      | [] => None
                      | evs' => Some evs'
                      end) (error_counters self)).

(** One line of [get_usage_stats]: current and limit for rpm, tpm, rpd. *)
Record Usage : Type := mkUsage {
  usage_rpm : Z * Z;
  usage_tpm : Z * Z;
  usage_rpd : Z * Z
}.

(** [get_usage_stats(self)]: prunes every provider's deques in place. *)
Definition get_usage_stats (API_PROVIDER : gmap string Provider)
    (self : RateLimiter) (now : Z) : gmap string Usage * RateLimiter :=
  let pruned := prune_counter now <$> counters self in
  let lim_of (p : string) : Limits :=
    match API_PROVIDER !! p with
    | Some cfg => match limits cfg with Some l => l | None => no_limits end
    | None => no_limits
    end in
  (map_imap (fun p c =>
     Some (mkUsage
       (Z.of_nat (length (rpm c)), default 0 (limit_rpm (lim_of p)))
       (py_sum (map snd (tpm c)), default 0 (limit_tpm (lim_of p)))
       (rpd c, default 0 (limit_rpd (lim_of p))))) pruned,
   mkRateLimiter pruned (error_counters self)).

(** [reset_all_limits(self)] *)
Definition reset_all_limits (self : RateLimiter) : RateLimiter :=
  mkRateLimiter ((fun _ => new_counter) <$> counters self) ∅.

(** ** Histories of the limiter

    Every public method of [RateLimiter] as one operation, so that "the
    states the program can reach" and "no call of [check_limit] so far" can
    be stated. *)
Inductive op : Type :=
| OpCheckLimit (api_provider : string) (lim : Limits) (token_count now : Z)
| OpIncrement (api_provider : string) (token_count now : Z)
| OpResetDailyCounts
| OpIncrementError (api_provider : string) (now : Z)
| OpIsErrorLimited (api_provider : string) (now : Z)
| OpCleanupErrorCounters (now : Z)
| OpGetUsageStats (API_PROVIDER : gmap string Provider) (now : Z)
| OpResetAllLimits.

(** The state a call leaves behind; a call of [increment] that raises
    [KeyError] leaves the state as it found it. *)
Definition step (self : RateLimiter) (o : op) : RateLimiter :=
  match o with
  | OpCheckLimit p lim t now => snd (check_limit self p lim t now)
  | OpIncrement p t now =>
      match increment self p t now with inr self' => self' | inl _ => self end
  | OpResetDailyCounts => reset_daily_counts self
  | OpIncrementError p now => snd (increment_error self p now)
  | OpIsErrorLimited p now => snd (is_error_limited self p now)
  | OpCleanupErrorCounters now => cleanup_error_counters self now
  | OpGetUsageStats cfg now => snd (get_usage_stats cfg self now)
  | OpResetAllLimits => reset_all_limits self
  end.

Definition run (ops : list op) (self : RateLimiter) : RateLimiter :=
  foldl step self ops.

(** [check_limit] was called for [p] somewhere in the history. *)
Definition checks_provider (p : string) (o : op) : bool :=
  match o with
  | OpCheckLimit q _ _ _ => String.eqb q p
  | _ => false
  end.

Definition never_checked (p : string) (ops : list op) : bool :=
  forallb (fun o => negb (checks_provider p o)) ops.

Definition is_increment (o : op) : bool :=
  match o with OpIncrement _ _ _ => true | _ => false end.

(** [commit(p, t_i)] at the times [now_i], one after the other; the first
    call that raises ends the sequence. *)
Fixpoint increments (self : RateLimiter) (api_provider : string)
    (calls : list (Z * Z)) : exn + RateLimiter :=
  match calls with
  | [] => inr self
  | (now, token_count) :: calls' =>
      match increment self api_provider token_count now with
      | inl e => inl e
      | inr self' => increments self' api_provider calls'
      end
  end.

(** What the limiter holds for a provider; a provider without an entry has
    used nothing. *)
Definition counter_of (self : RateLimiter) (p : string) : Counter :=
  default new_counter (counters self !! p).

Definition ledger_of (self : RateLimiter) (p : string) : list (Z * Z) :=
  default [] (error_counters self !! p).

(** Every event of every error ledger weighs 1, as [increment_error]
    writes them. *)
Definition unit_events (evs : list (Z * Z)) : Prop :=
  Forall (fun e => snd e = 1) evs.

Definition unit_ledgers (self : RateLimiter) : Prop :=
  forall p evs, error_counters self !! p = Some evs -> unit_events evs.

(** ** The request handlers: state, clock and exceptions *)

(** The module-level [rate_limiter] and the number of clock readings made. *)
Record World : Type := mkWorld {
  rate_limiter : RateLimiter;
  ticks : nat
}.

Definition M (A : Type) : Type := World -> (exn + A) * World.

Definition ret {A : Type} (a : A) : M A := fun w => (inr a, w).

Definition raise {A : Type} (e : exn) : M A := fun w => (inl e, w).

Definition bind {A B : Type} (m : M A) (k : A -> M B) : M B :=
  fun w => match m w with
           | (inl e, w') => (inl e, w')
           | (inr a, w') => k a w'
           end.

(** [try: m  except Exception as e: handler(e)] *)
Definition try_except {A : Type} (m : M A) (handler : exn -> M A) : M A :=
  fun w => match m w with
           | (inl e, w') => handler e w'
           | (inr a, w') => (inr a, w')
           end.

(** A call that may raise but touches no state. *)
Definition lift {A : Type} (r : exn + A) : M A := fun w => (r, w).

(** A method of the module-level [rate_limiter]. *)
Definition with_limiter {A : Type} (f : RateLimiter -> A * RateLimiter)
  : M A :=
  fun w => let '(a, rl) := f (rate_limiter w) in (inr a, mkWorld rl (ticks w)).

Definition with_limiter_exn (f : RateLimiter -> exn + RateLimiter) : M unit :=
  fun w => match f (rate_limiter w) with
           | inl e => (inl e, w)
           | inr rl => (inr tt, mkWorld rl (ticks w))
           end.

Notation "x <- c1 ;; c2" := (bind c1 (fun x => c2))
  (at level 100, c1 at next level, right associativity).
Notation "c1 ;; c2" := (bind c1 (fun _ => c2))
  (at level 100, right associativity).

(** What the upstream does with a buffered [client.post]. *)
Inductive post_outcome : Type :=
| PostResponse (status_code : Z) (text : string)
| PostRaises (e : exn).

(** What the upstream does with [client.stream]: the connection fails, or
    a status line arrives, then the chunks of the body, then the end of the
    body or an exception. *)
Inductive stream_outcome : Type :=
| StreamRaises (e : exn)
| StreamResponse (status_code : Z) (chunks : list string) (failure : option exn).

(** The async generator handed to [StreamingResponse], once started: the
    chunks it yields and the value it leaves in the context variable
    [response_status]. *)
Definition generator : Type := World -> (list string * Z) * World.

Inductive response_body : Type :=
| Content (text : string)
| Streaming (gen : generator).

Record Response : Type := mkResponse {
  status_code : Z;
  media_type : string;
  body : response_body
}.

(** [request_body[key] = v] *)
Fixpoint dict_set {A : Type} (key : string) (v : A) (d : list (string * A))
  : list (string * A) :=
  match d with
  | [] => [(key, v)]
  | (k, x) :: d' =>
      if String.eqb k key then (k, v) :: d' else (k, x) :: dict_set key v d'
  end.

Section Gateway.

(** The globals read by the handlers and the libraries they call. *)
Variable API_PROVIDER : gmap string Provider.
Variable MODEL_CONFIG : list (string * list (string * Binding)).
(** [datetime.now()], by the number of readings made before. *)
Variable clock : nat -> Z.
(** [json.dumps], [json.loads] on the bytes of a body, [bytes.decode],
    [len(tiktoken...encode(text))] and [str(e)]. *)
Variable json_dumps : json -> string.
Variable json_loads : string -> exn + json.
Variable utf8_decode : string -> exn + string.
Variable encode_len : string -> exn + Z.
Variable exn_str : exn -> string.
(** The upstream, by provider, uri and outbound body. *)
Variable upstream_post : string -> string -> json -> post_outcome.
Variable upstream_stream : string -> string -> json -> stream_outcome.

Definition datetime_now : M Z :=
  fun w => (inr (clock (ticks w)), mkWorld (rate_limiter w) (S (ticks w))).

(** The loop body of [extract_content] over the items of [messages].
    [message['content']] on a [str] or a [list], and [all_content += v]
    for a [v] that is not a [str], raise a [TypeError] that the [try]
    inside the loop swallows; ['content' in message] on a number, a
    boolean or [None] raises outside of it. *)
Fixpoint extract_messages (messages : list json) (all_content : string)
  : exn + string :=
  match messages with
  | [] => inr all_content
  | message :: rest =>
      match message with
      | JNull | JBool _ | JNum _ =>
          inl (TypeError "argument is not iterable")
      | JStr _ | JArr _ => extract_messages rest all_content
      | JObj fields =>
          match assoc "content" fields with
          | Some content =>
              if truthy content
              then match content with
                   | JArr _ =>
                       extract_messages rest
                         (all_content +:+ json_dumps content)
                   | JStr s => extract_messages rest (all_content +:+ s)
                   | _ => extract_messages rest all_content
                   end
              else extract_messages rest all_content
          | None => extract_messages rest all_content
          end
      end
  end.

(** [extract_content(request_body)].  Iterating a [str] gives single
    characters and iterating a [dict] gives its keys: none of them
    contributes; a number, a boolean or [None] cannot be iterated. *)
Definition extract_content (request_body : list (string * json))
  : exn + string :=
  match assoc "messages" request_body with
  | None => inr ""
  | Some (JArr items) => extract_messages items ""
  | Some (JStr _) | Some (JObj _) => inr ""
  | Some _ => inl (TypeError "object is not iterable")
  end.

(** The [for api_provider in api_providers] loop of [get_api_provider];
    [None] when the loop ends without [break]. *)
Fixpoint select_provider (bindings : list (string * Binding))
    (token_count : Z) : M (option string) :=
  match bindings with
  | [] => ret None
  | (api_provider, binding) :: rest =>
      api_provider_cfg <-
        match API_PROVIDER !! api_provider with
        | Some cfg => ret cfg
        | None => raise (KeyError api_provider)
        end ;;
      match enable binding with
      | Some false => select_provider rest token_count
      | _ =>
          now <- datetime_now ;;
          err <- with_limiter
                   (fun rl => is_error_limited rl api_provider now) ;;
          if fst err then select_provider rest token_count
          else
            let lim := default no_limits (limits api_provider_cfg) in
            now <- datetime_now ;;
            verdict <- with_limiter
              (fun rl => check_limit rl api_provider lim token_count now) ;;
            if negb (fst verdict) then select_provider rest token_count
            else
              now <- datetime_now ;;
              with_limiter_exn
                (fun rl => increment rl api_provider token_count now) ;;
              ret (Some api_provider)
      end
  end.

Definition no_capacity : exn :=
  HTTPException 429
    "no api available due to rate limits or all APIs are switched off. Please try again later.".

(** [get_api_provider(model, request_body)] *)
Definition get_api_provider (model : string)
    (request_body : list (string * json)) : M string :=
  match assoc model MODEL_CONFIG with
  | None =>
      raise (HTTPException 404
               ("model not found in cfg_model.json! model: " +:+ model))
  | Some bindings =>
      all_content <- lift (extract_content request_body) ;;
      token_count <- lift (encode_len all_content) ;;
      selected_api <- select_provider bindings token_count ;;
      match selected_api with
      | Some p => if String.eqb p "" then raise no_capacity else ret p
      | None => raise no_capacity
      end
  end.

(** [{"choices": [{"message": {"role": "assistant", "content": str(e)}}]}] *)
Definition wrapped_error (e : exn) : string :=
  json_dumps
    (JObj [("choices",
            JArr [JObj [("message",
                         JObj [("role", JStr "assistant");
                               ("content", JStr (exn_str e))])]])]).

(** [handle_non_streaming_request].  [response.raise_for_status()] is
    commented out in the source, so a response is returned as it came
    whatever its status; the handler of [httpx.HTTPStatusError] stays.
    Logging is left out: it does not touch the limiter. *)
Definition handle_non_streaming_request (api_provider uri : string)
    (request_body : json) : M Response :=
  match API_PROVIDER !! api_provider with
  | None =>
      ret (mkResponse 500 "application/json"
             (Content (wrapped_error (KeyError api_provider))))
  | Some _ =>
      match upstream_post api_provider uri request_body with
      | PostResponse status text =>
          ret (mkResponse status "application/json" (Content text))
      | PostRaises (HTTPStatusError status text) =>
          now <- datetime_now ;;
          with_limiter (fun rl => increment_error rl api_provider now) ;;
          ret (mkResponse status "application/json"
                 (Content (wrapped_error (HTTPStatusError status text))))
      | PostRaises e =>
          ret (mkResponse 500 "application/json"
                 (Content (wrapped_error e)))
      end
  end.

(** The [try] block of [generate_stream_response] as
    [handle_post_request] calls it ([passthrough=True]): the chunks
    yielded, the value left in [response_status], and the exception that
    ended the block, if any. *)
Definition stream_attempt (api_provider uri : string) (request_body : json)
    (response_status : Z) (w : World)
  : (list string * Z * option exn) * World :=
  match API_PROVIDER !! api_provider with
  | None => (([], response_status, Some (KeyError api_provider)), w)
  | Some _ =>
      match upstream_stream api_provider uri request_body with
      | StreamRaises e => (([], response_status, Some e), w)
      | StreamResponse status chunks failure =>
          (* response_status.set(response.status_code) *)
          if 400 <=? status then
            match failure with
            | Some e => (([], status, Some e), w)   (* aread() raises *)
            | None =>
                let error_content := String.concat "" chunks in
                let error_detail : exn + json :=
                  match json_loads error_content with
                  | inr (JObj fields) => inr (JObj fields)
                  | inr error_body => inr (JObj [("error", error_body)])
                  | inl JSONDecodeError =>
                      match utf8_decode error_content with
                      | inr text => inr (JObj [("error", JStr text)])
                      | inl e => inl e
                      end
                  | inl e => inl e
                  end in
                match error_detail with
                | inl e => (([], status, Some e), w)
                | inr detail =>
                    let now := clock (ticks w) in
                    let rl := snd (increment_error (rate_limiter w)
                                     api_provider now) in
                    (([json_dumps detail], status, None),
                     mkWorld rl (S (ticks w)))
                end
            end
          else ((chunks, status, failure), w)
      end
  end.

(** [generate_stream_response()]: the [try] block, then the handler
    [except Exception as e], which sets the variable to 500 and yields one
    more chunk. *)
Definition generate_stream_response (api_provider uri : string)
    (request_body : json) (response_status : Z) : generator :=
  fun w =>
    match stream_attempt api_provider uri request_body response_status w with
    | ((chunks, status, None), w') => ((chunks, status), w')
    | ((chunks, _, Some e), w') =>
        ((chunks ++ [json_dumps (JObj [("error", JStr (exn_str e))])])%list,
         500, w')
    end.

(** [handle_streaming_request(..., passthrough=True)].  The generator is
    created, not started; [response_status.get()] is evaluated to build
    the [StreamingResponse], when nothing has set the variable yet. *)
Definition handle_streaming_request (api_provider uri : string)
    (request_body : json) : M Response :=
  let response_status := 200 in   (* ContextVar(..., default=200) *)
  let stream :=
    generate_stream_response api_provider uri request_body response_status in
  ret (mkResponse response_status "text/event-stream" (Streaming stream)).

(** The [for model in MODEL_CONFIG] loop of the [auto] branch, with the
    values of [model] and [api_provider] on entry ([None]: not bound). *)
Fixpoint auto_select (models : list string)
    (request_body : list (string * json)) (model : string)
    (api_provider : option string) : M (string * option string) :=
  match models with
  | [] => ret (model, api_provider)
  | m :: rest =>
      p <- get_api_provider m request_body ;;
      if negb (String.eqb p "") then ret (m, Some p)
      else auto_select rest request_body m (Some p)
  end.

(** [handle_post_request(request, path)]; [request_json] is what
    [await request.json()] gives.  The rewriting of the headers is left
    out: no step of it can raise and nothing below reads them. *)
Definition handle_post_request (request_json : exn + json) (path : string)
  : M Response :=
  try_except
    (request_body <- lift request_json ;;
     fields <- match request_body with
               | JObj fields => ret fields
               | _ => raise (AttributeError "get")
               end ;;
     let is_streaming := default (JBool false) (assoc "stream" fields) in
     model <- match default (JStr "") (assoc "model" fields) with
              | JStr s => ret s
              | _ => raise (AttributeError "startswith")
              end ;;
     sel <- (if String.prefix "auto" model
             then auto_select (map fst MODEL_CONFIG) fields model None
             else p <- get_api_provider model fields ;;
                  ret (model, Some p)) ;;
     let model := fst sel in
     api_provider <- match snd sel with
                     | Some p => ret p
                     | None => raise (UnboundLocalError "api_provider")
                     end ;;
     match API_PROVIDER !! api_provider with
     | None =>
         raise (HTTPException 404
                  ("API not found in config.yaml! api_provider: "
                     +:+ api_provider +:+ " model: " +:+ model))
     | Some _ =>
         binding <- match assoc model MODEL_CONFIG with
                    | None => raise (KeyError model)
                    | Some bindings =>
                        match assoc api_provider bindings with
                        | None => raise (KeyError api_provider)
                        | Some b => ret b
                        end
                    end ;;
         let fields := match alias binding with
                       | Some a => dict_set "model" (JStr a) fields
                       | None => fields
                       end in
         if truthy is_streaming
         then handle_streaming_request api_provider path (JObj fields)
         else handle_non_streaming_request api_provider path (JObj fields)
     end)
    (fun e => if is_HTTPException e then raise e
              else raise (HTTPException 500 "Internal Server Error")).

End Gateway.

(** The status line the client receives: FastAPI answers a raised
    [HTTPException] with its [status_code], any other escaping exception
    with 500. *)
Definition client_status (r : exn + Response) : Z :=
  match r with
  | inr resp => status_code resp
  | inl (HTTPException status _) => status
  | inl _ => 500
  end.

(** ** log_interaction: the rotating interaction log

    The log directory is a finite map from file names to contents, a
    content being the bytes of the file, so that [os.path.getsize] is its
    length.  [datetime.now().strftime(...)] and the two renderings
    ([json.dumps(content, ensure_ascii=False, indent=2)] and
    [str(content)]) are given. *)

Definition nl : string := String (Ascii.ascii_of_nat 10) "".

Definition base_log_file : string := "agent_interactions.log".

(** [f'{base_log_file}.{i}'] *)
Definition backup_file (i : nat) : string :=
  base_log_file +:+ "." +:+ pretty i.

Definition max_file_size : Z := 5 * 1024 * 1024.
Definition max_backup_count : nat := 10.

(** One turn of the rotation loop for index [i]: the oldest backup is
    removed, any other is renamed to the next index. *)
Definition rotate_one (count i : nat) (fs : gmap string string)
  : gmap string string :=
  match fs !! backup_file i with
  | Some content =>
      if Nat.eqb i (count - 1)
      then delete (backup_file i) fs                       (* os.remove *)
      else <[backup_file (i + 1) := content]> (delete (backup_file i) fs)
                                                            (* os.rename *)
  | None => fs
  end.

(** [for i in range(i, 0, -1): ...] *)
Fixpoint rotate_from (count i : nat) (fs : gmap string string)
  : gmap string string :=
  match i with
  | O => fs
  | S i' => rotate_from count i' (rotate_one count (S i') fs)
  end.

(** The rotation that [log_interaction] performs when the active file has
    reached [max_file_size]. *)
Definition rotate (fs : gmap string string) : gmap string string :=
  let fs' := rotate_from max_backup_count (max_backup_count - 1) fs in
  match fs' !! base_log_file with
  | Some content =>
      <[backup_file 1 := content]> (delete base_log_file fs')
  | None => fs'
  end.

(** What one call writes: the header line, the content, and the
    separator. *)
Definition log_entry (render str_of : json -> string) (timestamp : string)
    (log_type : string) (content : json) : string :=
  ("[" +:+ timestamp +:+ "] " +:+ log_type +:+ nl)
  +:+ (match content with
       | JObj _ | JArr _ => render content
       | JStr text => text
       | _ => str_of content
       end)
  +:+ nl
  +:+ (if String.eqb log_type "REQUEST"
       then "----------" +:+ nl
       else "==========" +:+ nl +:+ nl).

(** [log_interaction(log_type, content)] *)
Definition log_interaction (render str_of : json -> string)
    (timestamp : string) (log_type : string) (content : json)
    (fs : gmap string string) : gmap string string :=
  let fs1 :=
    match fs !! base_log_file with
    | Some old =>
        if max_file_size <=? Z.of_nat (String.length old) then rotate fs
        else fs
    | None => fs
    end in
  <[base_log_file :=
      default "" (fs1 !! base_log_file)
      +:+ log_entry render str_of timestamp log_type content]> fs1.

(** ** get_error_logs *)

(** [sub in line] *)
Definition contains (sub line : string) : bool :=
  match String.index 0 sub line with
  | Some _ => true
  | None => false
  end.

Definition is_error_line (line : string) : bool := contains "- ERROR" line.

(** [''.join(lines[start:end])] with [start = max(0, i - 2)] and
    [end = min(len(lines), i + 1)]. *)
Definition error_context (lines : list string) (i : nat) : string :=
  let start := Nat.max 0 (i - 2) in
  let end_ := Nat.min (length lines) (i + 1) in
  String.concat "" (take (end_ - start) (drop start lines)).

(** [for i in range(i - 1, -1, -1): ...], with the windows collected so
    far; the loop is left when ten windows are collected. *)
Fixpoint scan_error_lines (lines : list string) (i : nat)
    (error_logs : list string) : list string :=
  match i with
  | O => error_logs
  | S i' =>
      match lines !! i' with
      | Some line =>
          if is_error_line line
          then
            let error_logs' := (error_logs ++ [error_context lines i'])%list in
            if (10 <=? length error_logs')%nat then error_logs'
            else scan_error_lines lines i' error_logs'
          else scan_error_lines lines i' error_logs
      | None => scan_error_lines lines i' error_logs
      end
  end.

(** The list under [error_logs] in the answer of [get_error_logs], from
    the lines of [app.log]. *)
Definition get_error_logs (lines : list string) : list string :=
  rev (scan_error_lines lines (length lines) []).

(** ** health_check *)

(** [f"{value}"] for a decoded JSON value: a string as it is, anything
    else by the given [str]. *)
Definition fmt (str_of : json -> string) (value : json) : string :=
  match value with
  | JStr text => text
  | _ => str_of value
  end.

(** [health_check(request)]: [request_json] is what [await
    request.json()] gives, [probe] what the upstream does with the test
    request sent to [base_url + "/chat/completions"], [response_time] the
    measured milliseconds.  The answer is the content of the
    [JSONResponse] (status 200) or the exception raised. *)
Definition health_check (API_PROVIDER : gmap string Provider)
    (str_of : json -> string) (exn_str : exn -> string)
    (probe : string -> option string -> json -> post_outcome)
    (response_time : Z) (request_json : exn + json) : exn + json :=
  match request_json with
  | inl _ => inl (UnboundLocalError "provider_name")
  | inr (JObj data) =>
      let provider_name := default JNull (assoc "provider" data) in
      let model_name := default JNull (assoc "model" data) in
      if negb (truthy provider_name)
      then inl (HTTPException 400 "Provider name is required")
      else if negb (truthy model_name)
      then inl (HTTPException 400 "Model name is required")
      else
        match provider_name with
        | JArr _ =>
            inl (HTTPException 500
                   (exn_str (TypeError "unhashable type: 'list'")))
        | JObj _ =>
            inl (HTTPException 500
                   (exn_str (TypeError "unhashable type: 'dict'")))
        | JStr name =>
            match API_PROVIDER !! name with
            | None =>
                inl (HTTPException 404 ("Provider '" +:+ name +:+ "' not found"))
            | Some provider_config =>
                if String.eqb (base_url provider_config) ""
                then inl (HTTPException 500
                            ("Provider '" +:+ name
                               +:+ "' has no base URL configured"))
                else
                  let test_payload :=
                    JObj [("model", model_name);
                          ("messages",
                           JArr [JObj [("role", JStr "user");
                                       ("content", JStr "Hello")]]);
                          ("max_tokens", JNum (inject_Z 5))] in
                  match probe (base_url provider_config)
                          (api_key provider_config) test_payload with
                  | PostRaises e => inl (HTTPException 500 (exn_str e))
                  | PostResponse status text =>
                      if status =? 200
                      then inr (JObj [("status", JStr "healthy");
                                      ("provider", provider_name);
                                      ("model", model_name);
                                      ("response_time",
                                       JNum (inject_Z response_time))])
                      else inr (JObj [("status", JStr "unhealthy");
                                      ("provider", provider_name);
                                      ("model", model_name);
                                      ("error",
                                       JStr ("HTTP " +:+ pretty status
                                               +:+ ": " +:+ text));
                                      ("response_time",
                                       JNum (inject_Z response_time))])
                  end
            end
        | _ =>
            inl (HTTPException 404
                   ("Provider '" +:+ fmt str_of provider_name +:+ "' not found"))
        end
  | inr _ => inl (UnboundLocalError "provider_name")
  end.

(** ** Vocabulary of the statements *)

(** The sum of the amounts held in a window. *)
Fixpoint window_total (w : list (Z * Z)) : Z :=
  match w with
  | [] => 0
  | (_, amount) :: w' => amount + window_total w'
  end.

(** The rpm check of [check_limit] lets the request through at [now]. *)
Definition rpm_not_binding (self : RateLimiter) (p : string) (lim : Limits)
    (now : Z) : Prop :=
  match limit_rpm lim with
  | Some K => Z.of_nat (length (popleft_expired now (rpm (counter_of self p)))) < K
  | None => True
  end.

(** [after] is [before] less a prefix of entries that are more than a minute
    old at [now]. *)
Definition dropped_expired (now : Z) (before after : list (Z * Z)) : Prop :=
  exists dropped,
    before = (dropped ++ after)%list
    /\ Forall (fun e => timedelta_minutes 1 < now - fst e) dropped.

(** [t_last] is the newest timestamp of a ledger. *)
Definition newest (t_last : Z) (evs : list (Z * Z)) : Prop :=
  In t_last (map fst evs) /\ Forall (fun e => fst e <= t_last) evs.

(** What the generator of a streaming response does once the response has
    been returned: the chunks sent, the value left in [response_status] and
    the state of the world. *)
Definition stream_result (r : (exn + Response) * World)
  : option ((list string * Z) * World) :=
  match fst r with
  | inr resp =>
      match body resp with
      | Streaming gen => Some (gen (snd r))
      | Content _ => None
      end
  | inl _ => None
  end.

(** ** The configuration of the scenarios of the specification

    Model [A] is bound to provider [P1] (rpm = 1), model [B] to provider
    [P2] (rpm = 10); the clock advances by one microsecond per reading; the
    stand-in tokenizer counts characters; the upstream's error body decodes
    to [{error: rate}]. *)
Definition demo_API_PROVIDER : gmap string Provider :=
  <["P1" := mkProvider "http://p1" None (Some (mkLimits (Some 1) None None None))]>
    (<["P2" := mkProvider "http://p2" None
                 (Some (mkLimits (Some 10) None None None))]> ∅).

Definition demo_MODEL_CONFIG : list (string * list (string * Binding)) :=
  [("A", [("P1", mkBinding None None)]); ("B", [("P2", mkBinding None None)])].

Definition demo_clock (n : nat) : Z := Z.of_nat n.

Definition demo_encode_len (text : string) : exn + Z :=
  inr (Z.of_nat (String.length text)).

Definition demo_json_loads (_ : string) : exn + json :=
  inr (JObj [("error", JStr "rate")]).

Definition demo_utf8_decode (text : string) : exn + string := inr text.

(** [handle_post_request] in that configuration. *)
Definition demo_post (json_dumps : json -> string) (exn_str : exn -> string)
    (upstream_post : string -> string -> json -> post_outcome)
    (upstream_stream : string -> string -> json -> stream_outcome)
  : exn + json -> string -> M Response :=
  handle_post_request demo_API_PROVIDER demo_MODEL_CONFIG demo_clock
    json_dumps demo_json_loads demo_utf8_decode demo_encode_len exn_str
    upstream_post upstream_stream.

(** The request bodies of the scenarios, decoded. *)
Definition auto_request : exn + json := inr (JObj [("model", JStr "auto")]).
Definition buffered_request : exn + json := inr (JObj [("model", JStr "A")]).
Definition streaming_request : exn + json :=
  inr (JObj [("model", JStr "A"); ("stream", JBool true)]).

(** A limiter on which one upstream failure of [P1] was recorded at time 0. *)
Definition penalised : RateLimiter :=
  snd (increment_error RateLimiter_init "P1" 0).

(** A limiter on which [P1] was admitted and 300 tokens were committed. *)
Definition committed_300 : RateLimiter :=
  step (step RateLimiter_init (OpCheckLimit "P1" no_limits 300 0))
       (OpIncrement "P1" 300 0).

(** ** Vocabulary of the further properties *)

(** Every ceiling that [lim] configures leaves room for a request of [t]
    tokens on the counter [c]. *)
Definition within_limits (c : Counter) (lim : Limits) (t : Z) : Prop :=
  (forall K, limit_rpm lim = Some K -> Z.of_nat (length (rpm c)) < K)
  /\ (forall L, limit_tpm lim = Some L -> window_total (tpm c) + t <= L)
  /\ (forall R, limit_tpr lim = Some R -> t <= R)
  /\ (forall D, limit_rpd lim = Some D -> rpd c < D).

(** The two windows of a counter hold the same timestamps, every request
    entry weighs 1, and the daily count is not negative. *)
Definition aligned (c : Counter) : Prop :=
  map fst (rpm c) = map fst (tpm c)
  /\ Forall (fun e => snd e = 1) (rpm c)
  /\ 0 <= rpd c.

(** A window in the order of its timestamps. *)
Fixpoint ordered (q : list (Z * Z)) : Prop :=
  match q with
  | [] => True
  | e :: q' => Forall (fun e' => fst e <= fst e') q' /\ ordered q'
  end.

(** The clock reading that a call of the limiter takes, for the methods
    that take one. *)
Definition op_time (o : op) : option Z :=
  match o with
  | OpCheckLimit _ _ _ now | OpIncrement _ _ now | OpIncrementError _ now
  | OpIsErrorLimited _ now | OpCleanupErrorCounters now
  | OpGetUsageStats _ now => Some now
  | OpResetDailyCounts | OpResetAllLimits => None
  end.

(** The clock readings of a history never go back, starting from [t]. *)
Fixpoint nondecreasing (t : Z) (ops : list op) : Prop :=
  match ops with
  | [] => True
  | o :: ops' =>
      match op_time o with
      | Some now => t <= now /\ nondecreasing now ops'
      | None => nondecreasing t ops'
      end
  end.

(** The last clock reading of a history that starts at [t]. *)
Fixpoint end_time (t : Z) (ops : list op) : Z :=
  match ops with
  | [] => t
  | o :: ops' => end_time (default t (op_time o)) ops'
  end.

(** Nothing in the list is stamped later than [t]. *)
Definition not_after (t : Z) (q : list (Z * Z)) : Prop :=
  Forall (fun e => fst e <= t) q.

(** The windows of every provider are ordered, and neither they nor the
    error ledgers hold a stamp later than [t]. *)
Definition well_timed (t : Z) (self : RateLimiter) : Prop :=
  forall p,
    ordered (rpm (counter_of self p)) /\ ordered (tpm (counter_of self p))
    /\ not_after t (rpm (counter_of self p))
    /\ not_after t (tpm (counter_of self p))
    /\ not_after t (ledger_of self p).

(** An entry that is at most a minute old at [now]. *)
Definition fresh (now : Z) (e : Z * Z) : bool :=
  negb (timedelta_minutes 1 <? now - fst e).

(** Every binding names a provider of [api_provider]. *)
Definition configured (API_PROVIDER : gmap string Provider)
    (bindings : list (string * Binding)) : Prop :=
  Forall (fun pb => is_Some (API_PROVIDER !! fst pb)) bindings.

(** The daily count of a provider in a world. *)
Definition rpd_of (w : World) (q : string) : Z :=
  rpd (counter_of (rate_limiter w) q).

(** A message that [extract_content] cannot look into: a bare [None],
    boolean or number. *)
Definition scalar (message : json) : Prop :=
  match message with
  | JNull | JBool _ | JNum _ => True
  | _ => False
  end.

(** A chat message [{role: ..., content: text}] whose content is a
    string. *)
Definition chat_message (role text : string) : json :=
  JObj [("role", JStr role); ("content", JStr text)].

(** The texts of a conversation, one after the other. *)
Definition concat_all (texts : list string) : string :=
  foldr String.append "" texts.

(** The indices of the lines of a log that hold an error, in file order. *)
Definition error_indices (lines : list string) : list nat :=
  List.filter (fun i => match lines !! i with
                        | Some line => is_error_line line
                        | None => false
                        end)
    (seq 0 (length lines)).

(** The last [n] elements of a list. *)
Definition last_n {A : Type} (n : nat) (l : list A) : list A :=
  drop (length l - n) l.

(** A file name that is none of the backups 1 to 9 of the interaction
    log. *)
Definition not_a_backup (f : string) : Prop :=
  forall j, (1 <= j <= 9)%nat -> f <> backup_file j.

(** A content of [n] bytes. *)
Fixpoint filler (n : nat) : string :=
  match n with
  | O => ""
  | S n' => String (Ascii.ascii_of_nat 120) (filler n')
  end.

(** An active log that has reached the size limit. *)
Definition full_log : string := filler (Z.to_nat max_file_size).

(** The error envelope of the streaming path for a decoded error body. *)
Definition envelope (error_body : json) : json :=
  match error_body with
  | JObj fields => JObj fields
  | _ => JObj [("error", error_body)]
  end.


(** *** Stand-ins for the scenarios of the further properties *)

Definition demo_world : World := mkWorld RateLimiter_init 0.

Definition quiet_dumps (_ : json) : string := "".
Definition quiet_str (_ : exn) : string := "".

Definition P1_cfg : Provider :=
  mkProvider "http://p1" None (Some (mkLimits (Some 1) None None None)).

(** An upstream that answers 200 with the model name it was asked for. *)
Definition echo_model_post (_ _ : string) (body : json) : post_outcome :=
  PostResponse 200
    (match body with
     | JObj fields => match assoc "model" fields with
                      | Some (JStr m) => m
                      | _ => ""
                      end
     | _ => ""
     end).


Definition silent_stream (_ _ : string) (_ : json) : stream_outcome :=
  StreamResponse 200 [] None.


Definition refused_stream (_ _ : string) (_ : json) : stream_outcome :=
  StreamResponse 429 ["too many requests"] None.

(** [handle_post_request] over the providers of the scenarios with a given
    model registry and upstream. *)
Definition demo_handle (MODEL_CONFIG : list (string * list (string * Binding)))
    (upstream_post : string -> string -> json -> post_outcome)
    (upstream_stream : string -> string -> json -> stream_outcome)
  : exn + json -> string -> M Response :=
  handle_post_request demo_API_PROVIDER MODEL_CONFIG demo_clock quiet_dumps
    demo_json_loads demo_utf8_decode demo_encode_len quiet_str
    upstream_post upstream_stream.




(** A log directory whose active file is full and that has backups 1, 2
    and 9. *)
Definition full_directory : gmap string string :=
  <[base_log_file := full_log]>
    (<[backup_file 1 := "one"]>
       (<[backup_file 2 := "two"]> (<[backup_file 9 := "nine"]> ∅))).

(** ** The rate limiter *)

Lemma py_sum_acc (xs : list Z) (a : Z) : foldl Z.add a xs = a + py_sum xs.
Proof.
  unfold py_sum. revert a.
  induction xs as [|x xs IH]; intros a; simpl; [lia|].
  rewrite (IH (a + x)), (IH (0 + x)). lia.
Qed.

Lemma py_sum_window (w : list (Z * Z)) : py_sum (map snd w) = window_total w.
Proof.
  induction w as [|[ts amount] w IH]; [reflexivity|].
  unfold py_sum in *. simpl. rewrite py_sum_acc. unfold py_sum. lia.
Qed.

(** Pruning drops a prefix of the window, all of whose entries are older
    than a minute. *)
Lemma popleft_expired_dropped (now : Z) (q : list (Z * Z)) :
  exists dropped,
    q = (dropped ++ popleft_expired now q)%list
    /\ Forall (fun e => timedelta_minutes 1 < now - fst e) dropped.
Proof.
  induction q as [|[ts amount] q (dropped & Hq & Hold)]; simpl.
  - exists []. split; [reflexivity | constructor].
  - destruct (Z.ltb_spec (timedelta_minutes 1) (now - ts)) as [Hts|Hts].
    + exists ((ts, amount) :: dropped). simpl. split; [congruence|].
      constructor; [exact Hts | exact Hold].
    + exists []. split; [reflexivity | constructor].
Qed.

Lemma popleft_expired_suffix (now : Z) (q : list (Z * Z)) :
  popleft_expired now q `suffix_of` q.
Proof.
  destruct (popleft_expired_dropped now q) as (dropped & Hq & _).
  by exists dropped.
Qed.

(** A window whose oldest entry is at most a minute old is left whole. *)
Lemma popleft_expired_fresh (now : Z) (q : list (Z * Z)) :
  match q with
  | [] => True
  | (ts, _) :: _ => now - ts <= timedelta_minutes 1
  end ->
  popleft_expired now q = q.
Proof.
  destruct q as [|[ts amount] q]; simpl; [reflexivity|].
  intros H. destruct (Z.ltb_spec (timedelta_minutes 1) (now - ts)); [lia|reflexivity].
Qed.

Lemma counter_of_check_limit (self : RateLimiter) (p : string) (lim : Limits)
    (t now : Z) (q : string) :
  counter_of (snd (check_limit self p lim t now)) q
  = if decide (p = q) then prune_counter now (counter_of self p)
    else counter_of self q.
Proof.
  unfold counter_of, check_limit. simpl.
  rewrite lookup_insert. case_decide; simpl; reflexivity.
Qed.

(** C4: with [tpm = L] configured and the rpm check not rejecting, admit
    answers "TPM limit exceeded" exactly when the tokens held in the pruned
    tpm window plus the tokens of the request exceed [L]. *)
Theorem check_limit_tpm_iff (self : RateLimiter) (p : string) (lim : Limits)
    (L t now : Z) :
  limit_tpm lim = Some L ->
  rpm_not_binding self p lim now ->
  fst (check_limit self p lim t now) = (false, "TPM limit exceeded")
  <-> L < window_total (popleft_expired now (tpm (counter_of self p))) + t.
Proof.
  intros HL Hrpm.
  unfold rpm_not_binding, check_limit, counter_of in *. simpl.
  set (c := default new_counter (counters self !! p)) in *.
  replace (match counters self !! p with Some c0 => c0 | None => new_counter end)
    with c by (subst c; destruct (counters self !! p); reflexivity).
  unfold check_counter.
  assert (Hr : check_rpm (prune_counter now c) lim = None).
  { unfold check_rpm. simpl.
    destruct (limit_rpm lim) as [K|]; [|reflexivity].
    destruct (Z.leb_spec K (Z.of_nat (length (popleft_expired now (rpm c)))));
      [lia|reflexivity]. }
  rewrite Hr. unfold check_tpm. rewrite HL. simpl.
  rewrite py_sum_window.
  destruct (Z.ltb_spec L (window_total (popleft_expired now (tpm c)) + t)) as [Hlt|Hge].
  - split; [intros _; exact Hlt | reflexivity].
  - split; [|lia].
    unfold check_tpr, check_rpd.
    destruct (limit_tpr lim) as [l|]; [destruct (l <? t)|];
      try discriminate;
      (destruct (limit_rpd lim) as [l'|];
       [destruct (l' <=? rpd (prune_counter now c))|]; discriminate).
Qed.

Lemma counters_is_error_limited (self : RateLimiter) (p : string) (now : Z) :
  counters (snd (is_error_limited self p now)) = counters self.
Proof. unfold is_error_limited. repeat case_match; reflexivity. Qed.

Lemma counter_of_increment (self self' : RateLimiter) (p : string) (t now : Z) :
  increment self p t now = inr self' ->
  is_Some (counters self !! p)
  /\ error_counters self' = error_counters self
  /\ forall q, counter_of self' q
       = if decide (p = q)
         then mkCounter (rpm (counter_of self p) ++ [(now, 1)])
                        (tpm (counter_of self p) ++ [(now, t)])
                        (rpd (counter_of self p) + 1)
         else counter_of self q.
Proof.
  unfold increment, counter_of.
  destruct (counters self !! p) as [c|] eqn:Hc; [|discriminate].
  intros [= <-]. simpl. split; [eauto|]. split; [reflexivity|].
  intros q. rewrite lookup_insert. case_decide; reflexivity.
Qed.

Lemma increment_after_check_limit (self : RateLimiter) (p : string)
    (lim : Limits) (t0 now0 t now : Z) :
  exists self', increment (snd (check_limit self p lim t0 now0)) p t now = inr self'.
Proof.
  unfold increment, check_limit. simpl. rewrite lookup_insert_eq. eauto.
Qed.

(** [check_limit] only prunes: what it leaves for any provider. *)
Lemma check_limit_frame (self : RateLimiter) (p : string) (lim : Limits)
    (t now : Z) (q : string) :
  rpd (counter_of (snd (check_limit self p lim t now)) q) = rpd (counter_of self q)
  /\ dropped_expired now (rpm (counter_of self q))
       (rpm (counter_of (snd (check_limit self p lim t now)) q))
  /\ dropped_expired now (tpm (counter_of self q))
       (tpm (counter_of (snd (check_limit self p lim t now)) q)).
Proof.
  rewrite counter_of_check_limit. unfold dropped_expired.
  case_decide; subst; simpl.
  - auto using popleft_expired_dropped.
  - split; [reflexivity|]. split; exists []; split; (reflexivity || constructor).
Qed.

Lemma dropped_expired_suffix (now : Z) (before after : list (Z * Z)) :
  dropped_expired now before after -> after `suffix_of` before.
Proof. intros (dropped & Hq & _). by exists dropped. Qed.

(** C8: admit records no usage.  For every provider, [check_limit] leaves
    the rpd count as it was and appends nothing to either window: each
    window after the call is the window before it less a prefix of entries
    older than a minute; the error ledgers are left alone.  The commit that
    follows is what appends one entry to each window and adds one to rpd. *)
Theorem check_limit_records_no_usage (self : RateLimiter) (p : string)
    (lim : Limits) (t now : Z) (q : string) :
  let self' := snd (check_limit self p lim t now) in
  rpd (counter_of self' q) = rpd (counter_of self q)
  /\ dropped_expired now (rpm (counter_of self q)) (rpm (counter_of self' q))
  /\ dropped_expired now (tpm (counter_of self q)) (tpm (counter_of self' q))
  /\ error_counters self' = error_counters self
  /\ match increment self' p t now with
     | inr self'' =>
         rpd (counter_of self'' p) = rpd (counter_of self' p) + 1
         /\ rpm (counter_of self'' p) = (rpm (counter_of self' p) ++ [(now, 1)])%list
         /\ tpm (counter_of self'' p) = (tpm (counter_of self' p) ++ [(now, t)])%list
     | inl _ => False
     end.
Proof.
  intros self'. subst self'.
  destruct (check_limit_frame self p lim t now q) as (H1 & H2 & H3).
  repeat (split; [assumption|]). split; [reflexivity|].
  destruct (increment_after_check_limit self p lim t now t now) as [self'' Hinc].
  rewrite Hinc.
  destruct (counter_of_increment _ _ _ _ _ Hinc) as (_ & _ & Hq).
  rewrite (Hq p). rewrite decide_True by reflexivity. simpl. auto.
Qed.

(** No method but [increment] records usage: it drops entries from the
    front of a window or clears it, and leaves rpd alone or resets it. *)
Lemma only_increment_records_usage (self : RateLimiter) (o : op) (q : string) :
  is_increment o = false ->
  rpm (counter_of (step self o) q) `suffix_of` rpm (counter_of self q)
  /\ tpm (counter_of (step self o) q) `suffix_of` tpm (counter_of self q)
  /\ (rpd (counter_of (step self o) q) = rpd (counter_of self q)
      \/ rpd (counter_of (step self o) q) = 0).
Proof.
  destruct o as [p lim t now|p t now| |p now|p now|now|cfg now| ];
    intros Hinc; try discriminate; simpl.
  - destruct (check_limit_frame self p lim t now q) as (H1 & H2 & H3).
    apply dropped_expired_suffix in H2, H3. auto.
  - unfold counter_of, reset_daily_counts; simpl. rewrite lookup_fmap.
    destruct (counters self !! q); simpl; auto.
  - unfold counter_of, increment_error; simpl. auto.
  - unfold counter_of. rewrite counters_is_error_limited. auto.
  - unfold counter_of, cleanup_error_counters; simpl. auto.
  - unfold counter_of, get_usage_stats; simpl. rewrite lookup_fmap.
    destruct (counters self !! q); simpl;
      auto using popleft_expired_suffix.
  - unfold counter_of, reset_all_limits; simpl. rewrite lookup_fmap.
    destruct (counters self !! q); simpl; auto using suffix_nil.
Qed.

(** An entry of [counters] is created by [check_limit] and by nothing else. *)
Lemma step_keeps_no_entry (self : RateLimiter) (o : op) (p : string) :
  checks_provider p o = false ->
  counters self !! p = None ->
  counters (step self o) !! p = None.
Proof.
  destruct o as [q lim t now|q t now| |q now|q now|now|cfg now| ];
    simpl; intros Hadm Hnone.
  - apply String.eqb_neq in Hadm. by rewrite lookup_insert_ne.
  - unfold increment. destruct (counters self !! q) eqn:Hq; [|exact Hnone].
    simpl. rewrite lookup_insert_ne; [exact Hnone|]. congruence.
  - by rewrite lookup_fmap, Hnone.
  - exact Hnone.
  - by rewrite counters_is_error_limited.
  - exact Hnone.
  - by rewrite lookup_fmap, Hnone.
  - by rewrite lookup_fmap, Hnone.
Qed.

Lemma run_keeps_no_entry (ops : list op) (self : RateLimiter) (p : string) :
  never_checked p ops = true ->
  counters self !! p = None ->
  counters (run ops self) !! p = None.
Proof.
  revert self. induction ops as [|o ops IH]; intros self Hnever Hnone;
    [exact Hnone|].
  simpl in Hnever. apply andb_true_iff in Hnever as [Ho Hops].
  apply negb_true_iff in Ho.
  unfold run. simpl. apply IH; [exact Hops|].
  by apply step_keeps_no_entry.
Qed.

(** C10: after any history of the limiter without a [check_limit] for [p],
    [p] has no counter entry and [increment] for [p] raises [KeyError]
    instead of recording usage; a [check_limit] for [p] creates the entry,
    after which [increment] goes through. *)
Theorem increment_before_check_limit_raises (ops : list op) (p : string)
    (t now : Z) :
  never_checked p ops = true ->
  let self := run ops RateLimiter_init in
  counters self !! p = None
  /\ increment self p t now = inl (KeyError p)
  /\ forall lim t0 now0,
       is_Some (counters (snd (check_limit self p lim t0 now0)) !! p)
       /\ exists self',
            increment (snd (check_limit self p lim t0 now0)) p t now = inr self'.
Proof.
  intros Hnever self.
  assert (Hnone : counters self !! p = None).
  { apply run_keeps_no_entry; [exact Hnever | apply lookup_empty]. }
  split; [exact Hnone|]. split.
  - unfold increment. by rewrite Hnone.
  - intros lim t0 now0. split.
    + unfold check_limit. simpl. rewrite lookup_insert_eq. eauto.
    + apply increment_after_check_limit.
Qed.

(** What a run of commits on an existing entry leaves behind. *)
Lemma increments_entry (calls : list (Z * Z)) (self : RateLimiter)
    (p : string) (c : Counter) :
  counters self !! p = Some c ->
  exists self',
    increments self p calls = inr self'
    /\ counters self' !! p
       = Some (mkCounter (rpm c ++ map (fun call => (fst call, 1)) calls)
                         (tpm c ++ calls)
                         (rpd c + Z.of_nat (length calls))).
Proof.
  revert self c. induction calls as [|[now t] calls IH]; intros self c Hc.
  - exists self. split; [reflexivity|].
    rewrite Hc, !app_nil_r. simpl. rewrite Z.add_0_r. by destruct c.
  - cbn [increments]. unfold increment. rewrite Hc.
    match goal with
    | |- context [increments ?s p calls] =>
        destruct (IH s _ ltac:(simpl; apply lookup_insert_eq))
          as (self' & Hrun & Hentry)
    end.
    exists self'. split; [exact Hrun|].
    rewrite Hentry. simpl. rewrite <- !app_assoc. simpl.
    do 2 f_equal. lia.
Qed.

(** C5, as the code has it: for a provider whose counter entry exists with
    empty windows (what a first admit leaves), N commits all made within the
    60 seconds before [now] succeed; afterwards the tpm window sums to the
    committed tokens, the rpm window has N entries, rpd has grown by N, and
    pruning at [now] removes none of them. *)
Theorem commits_accumulate (self : RateLimiter) (p : string) (c : Counter)
    (calls : list (Z * Z)) (now : Z) :
  counters self !! p = Some c ->
  rpm c = [] ->
  tpm c = [] ->
  Forall (fun call => now - fst call <= timedelta_minutes 1) calls ->
  exists self',
    increments self p calls = inr self'
    /\ window_total (tpm (counter_of self' p)) = window_total calls
    /\ length (rpm (counter_of self' p)) = length calls
    /\ rpd (counter_of self' p) = rpd c + Z.of_nat (length calls)
    /\ prune_counter now (counter_of self' p) = counter_of self' p.
Proof.
  intros Hc Hrpm Htpm Hfresh.
  destruct (increments_entry calls self p c Hc) as (self' & Hrun & Hentry).
  exists self'. split; [exact Hrun|].
  unfold counter_of. rewrite Hentry, Hrpm, Htpm. simpl.
  rewrite length_map. repeat split.
  unfold prune_counter. simpl. f_equal.
  - apply popleft_expired_fresh.
    destruct calls as [|[t0 a0] calls]; simpl; [exact I|].
    by inversion Hfresh.
  - apply popleft_expired_fresh.
    destruct calls as [|[t0 a0] calls]; simpl; [exact I|].
    by inversion Hfresh.
Qed.

(** C5 as stated fails.  For a provider that was never admitted, the first
    commit on a fresh limiter raises [KeyError] and no window holds it; and
    for a provider whose windows already hold 300 committed tokens, one
    commit of 5 tokens leaves a sum of 305 and two entries, not 5 and one. *)
Lemma commit_without_entry_raises :
  (increments RateLimiter_init "P1" [(0, 5)] = inl (KeyError "P1")
   /\ ~ (exists self',
           increments RateLimiter_init "P1" [(0, 5)] = inr self'
           /\ window_total (tpm (counter_of self' "P1")) = 5
           /\ length (rpm (counter_of self' "P1")) = 1%nat))
  /\ (exists self',
        increments committed_300 "P1" [(1, 5)] = inr self'
        /\ window_total (tpm (counter_of self' "P1")) = 305
        /\ length (rpm (counter_of self' "P1")) = 2%nat).
Proof.
  split; [split; [reflexivity|]|].
  - intros (self' & Hrun & _). discriminate Hrun.
  - eexists. split; [reflexivity|]. split; reflexivity.
Qed.

(** *** The error ledger *)

Lemma unit_events_recent (now : Z) (evs : list (Z * Z)) :
  unit_events evs -> unit_events (recent_errors now evs).
Proof.
  unfold unit_events, recent_errors. rewrite !List.Forall_forall.
  intros H e He. apply List.filter_In in He as [He _]. auto.
Qed.

Lemma unit_events_total (evs : list (Z * Z)) :
  unit_events evs -> window_total evs = Z.of_nat (length evs).
Proof.
  induction 1 as [|[ts n] evs Hn _ IH]; simpl in *; [reflexivity|]. lia.
Qed.

Lemma unit_ledgers_insert (self : RateLimiter) (p : string)
    (evs : list (Z * Z)) (cs : gmap string Counter) :
  unit_ledgers self -> unit_events evs ->
  unit_ledgers (mkRateLimiter cs (<[p := evs]> (error_counters self))).
Proof.
  intros Hself Hevs q evs'. simpl. rewrite lookup_insert.
  case_decide; [intros [= <-]; exact Hevs | apply Hself].
Qed.

Lemma unit_ledgers_step (self : RateLimiter) (o : op) :
  unit_ledgers self -> unit_ledgers (step self o).
Proof.
  intros Hself.
  destruct o as [p lim t now|p t now| |p now|p now|now|cfg now| ]; simpl.
  - exact Hself.
  - unfold increment. destruct (counters self !! p); [|exact Hself].
    exact Hself.
  - exact Hself.
  - apply unit_ledgers_insert; [exact Hself|].
    apply Forall_app. split; [|by repeat constructor].
    apply unit_events_recent.
    destruct (error_counters self !! p) eqn:Hp; [by eapply Hself | constructor].
  - unfold is_error_limited.
    destruct (error_counters self !! p) as [[|e evs]|] eqn:Hp; try exact Hself.
    assert (Hrec : unit_events (recent_errors now (e :: evs)))
      by (apply unit_events_recent; by eapply Hself).
    repeat case_match; simpl;
      solve [exact Hself | by apply unit_ledgers_insert].
  - intros q evs'. unfold cleanup_error_counters. simpl.
    rewrite lookup_omap.
    destruct (error_counters self !! q) as [evs|] eqn:Hq; simpl; [|discriminate].
    pose proof (unit_events_recent now evs (Hself q evs Hq)) as Hrec.
    destruct (recent_errors now evs); [discriminate|].
    by intros [= <-].
  - exact Hself.
  - intros q evs'. simpl. by rewrite lookup_empty.
Qed.

(** Every state the limiter can reach holds only unit events. *)
Lemma unit_ledgers_run (ops : list op) (self : RateLimiter) :
  unit_ledgers self -> unit_ledgers (run ops self).
Proof.
  revert self. induction ops as [|o ops IH]; intros self Hself; [exact Hself|].
  unfold run. simpl. apply IH. by apply unit_ledgers_step.
Qed.

Lemma unit_ledgers_init : unit_ledgers RateLimiter_init.
Proof. intros p evs. simpl. by rewrite lookup_empty. Qed.

Lemma py_max_acc (xs : list Z) (x : Z) :
  x <= py_max x xs
  /\ Forall (fun y => y <= py_max x xs) xs
  /\ (py_max x xs = x \/ In (py_max x xs) xs).
Proof.
  unfold py_max. revert x.
  induction xs as [|y xs IH]; intros x; simpl.
  - split; [lia|]. split; [constructor | by left].
  - destruct (IH (Z.max x y)) as (H1 & H2 & H3).
    split; [lia|]. split; [constructor; [lia | exact H2]|].
    destruct H3 as [H3|H3]; [|by right; right].
    rewrite H3. destruct (Z.max_spec x y) as [[_ ->]|[_ ->]]; auto.
Qed.

(** [max] over the timestamps of a non-empty ledger is its newest one. *)
Lemma py_max_newest (t0 c0 : Z) (rest : list (Z * Z)) (t_last : Z) :
  newest t_last ((t0, c0) :: rest) ->
  py_max t0 (map fst rest) = t_last.
Proof.
  intros [Hin Hall].
  destruct (py_max_acc (map fst rest) t0) as (H1 & H2 & H3).
  apply Z.le_antisymm.
  - rewrite List.Forall_forall in Hall.
    destruct H3 as [->|H3].
    + apply (Hall (t0, c0)). by left.
    + apply List.in_map_iff in H3 as (e & <- & He). apply Hall. by right.
  - simpl in Hin. destruct Hin as [<-|Hin]; [exact H1|].
    rewrite List.Forall_forall in H2. by apply H2.
Qed.

(** A provider whose ledger holds no event of the last 24 hours is not
    limited. *)
Lemma is_error_limited_no_recent_error (self : RateLimiter) (p : string)
    (now : Z) :
  recent_errors now (ledger_of self p) = [] ->
  fst (is_error_limited self p now) = (false, 0).
Proof.
  unfold ledger_of, is_error_limited.
  destruct (error_counters self !! p) as [[|e l]|]; simpl; try reflexivity.
  intros ->. reflexivity.
Qed.

(** C3: in any state the limiter can reach, if the ledger of the provider,
    pruned to the last 24 hours, holds n events of which the newest is at
    [t_last], then [is_error_limited] reports the provider limited exactly
    when [now < t_last + min(10 n, 1440)] minutes, and the minutes it
    reports are the whole minutes left until that bound. *)
Theorem is_error_limited_iff (ops : list op) (p : string) (now t_last : Z) :
  let self := run ops RateLimiter_init in
  let evs := recent_errors now (ledger_of self p) in
  let n := Z.of_nat (length evs) in
  let bound := t_last + timedelta_minutes (Z.min (10 * n) 1440) in
  let answer := fst (is_error_limited self p now) in
  newest t_last evs ->
  (fst answer = true <-> now < bound)
  /\ (fst answer = true ->
      timedelta_minutes (snd answer) <= bound - now
                                     < timedelta_minutes (snd answer + 1)).
Proof.
  intros self evs n bound answer Hnew.
  assert (Hunit : unit_ledgers self)
    by apply unit_ledgers_run, unit_ledgers_init.
  subst answer evs n bound. unfold ledger_of, is_error_limited in *.
  destruct (error_counters self !! p) as [[|e l]|] eqn:Hp; simpl in Hnew;
    try (destruct Hnew as [[] _]).
  pose proof (unit_events_recent now _ (Hunit p _ Hp)) as Hrec.
  simpl.
  destruct (recent_errors now (e :: l)) as [|[t0 c0] rest] eqn:Hevs;
    [destruct Hnew as [[] _]|].
  rewrite (py_max_newest _ _ _ _ Hnew).
  change (c0 :: map snd rest) with (map snd ((t0, c0) :: rest)).
  rewrite py_sum_window, (unit_events_total _ Hrec).
  replace (Z.of_nat (length ((t0, c0) :: rest)) * 10)
    with (10 * Z.of_nat (length ((t0, c0) :: rest))) by lia.
  replace (24 * 60) with 1440 by reflexivity.
  set (bound := t_last + timedelta_minutes _).
  destruct (Z.ltb_spec now bound) as [Hlt|Hge]; simpl.
  - split; [tauto|]. intros _. clearbody bound.
    unfold timedelta_minutes. change (1 * 60000000) with 60000000.
    pose proof (Z.quot_rem' (bound - now) 60000000) as Hqr.
    pose proof (Z.rem_bound_pos (bound - now) 60000000
                  ltac:(lia) ltac:(lia)) as Hr.
    lia.
  - split; [|discriminate]. split; [discriminate | lia].
Qed.

(** ** The selector and the dispatcher *)

Lemma check_limit_reasons (self : RateLimiter) (p : string) (lim : Limits)
    (t now : Z) :
  String.prefix "error_limited" (snd (fst (check_limit self p lim t now)))
  = false.
Proof.
  unfold check_limit, check_counter, check_rpm, check_tpm, check_tpr, check_rpd.
  simpl. repeat case_match; simplify_eq; reflexivity.
Qed.

Section GatewayFacts.

Variable API_PROVIDER : gmap string Provider.
Variable MODEL_CONFIG : list (string * list (string * Binding)).
Variable clock : nat -> Z.
Variable json_dumps : json -> string.
Variable json_loads : string -> exn + json.
Variable utf8_decode : string -> exn + string.
Variable encode_len : string -> exn + Z.
Variable exn_str : exn -> string.
Variable upstream_post : string -> string -> json -> post_outcome.
Variable upstream_stream : string -> string -> json -> stream_outcome.

Abbreviation select := (select_provider API_PROVIDER clock).
Abbreviation get_provider :=
  (get_api_provider API_PROVIDER MODEL_CONFIG clock json_dumps encode_len).
Abbreviation auto :=
  (auto_select API_PROVIDER MODEL_CONFIG clock json_dumps encode_len).
Abbreviation handle_post :=
  (handle_post_request API_PROVIDER MODEL_CONFIG clock json_dumps json_loads
     utf8_decode encode_len exn_str upstream_post upstream_stream).

(** C6, as the code has it: a provider in error penalty is skipped by the
    selector before [check_limit] is called for it.  The selection goes
    on with the remaining bindings from a state in which only the error
    ledger was pruned and one clock reading was made: no rpm, tpm, tpr or
    rpd check is applied and the counters are untouched.  [check_limit]
    itself gives no reason that starts with [error_limited]. *)
Theorem error_limited_binding_is_skipped (p : string) (cfg : Provider)
    (binding : Binding) (rest : list (string * Binding)) (t : Z) (w : World) :
  API_PROVIDER !! p = Some cfg ->
  enable binding <> Some false ->
  fst (fst (is_error_limited (rate_limiter w) p (clock (ticks w)))) = true ->
  let w' := mkWorld (snd (is_error_limited (rate_limiter w) p (clock (ticks w))))
                    (S (ticks w)) in
  select ((p, binding) :: rest) t w = select rest t w'
  /\ counters (rate_limiter w') = counters (rate_limiter w)
  /\ forall self q lim t' now,
       String.prefix "error_limited"
         (snd (fst (check_limit self q lim t' now))) = false.
Proof.
  intros Hcfg Hen Hlim w'. split; [|split].
  - cbn [select_provider]. unfold bind at 1. unfold ret at 1.
    rewrite Hcfg.
    assert (Hskip :
      (now <- datetime_now clock ;;
       err <- with_limiter (fun rl => is_error_limited rl p now) ;;
       if fst err then select rest t
       else
         let lim := default no_limits (limits cfg) in
         now0 <- datetime_now clock ;;
         verdict <- with_limiter
           (fun rl => check_limit rl p lim t now0) ;;
         if negb (fst verdict) then select rest t
         else
           now1 <- datetime_now clock ;;
           with_limiter_exn (fun rl => increment rl p t now1) ;;
           ret (Some p)) w = select rest t w').
    { unfold bind at 1 2, datetime_now at 1, with_limiter at 1. simpl.
      destruct (is_error_limited (rate_limiter w) p (clock (ticks w)))
        as [[limited minutes] rl] eqn:Herr.
      simpl in Hlim. subst limited. subst w'. reflexivity. }
    destruct (enable binding) as [[|]|]; [exact Hskip | congruence | exact Hskip].
  - apply counters_is_error_limited.
  - intros. apply check_limit_reasons.
Qed.

(** [get_api_provider] never answers with an empty provider name. *)
Lemma get_api_provider_truthy (model : string)
    (body : list (string * json)) (w w' : World) (p : string) :
  get_provider model body w = (inr p, w') -> String.eqb p "" = false.
Proof.
  unfold get_api_provider. destruct (assoc model MODEL_CONFIG); [|discriminate].
  unfold bind, lift, raise, ret.
  destruct (extract_content json_dumps body); [discriminate|].
  destruct (encode_len _); [discriminate|].
  destruct (select _ _ _) as [[e|[q|]] w1]; try discriminate.
  destruct (String.eqb q "") eqn:Hq; [discriminate|].
  intros [= <- _]. exact Hq.
Qed.

(** The [auto] loop is decided by the first configured model alone: what
    [get_api_provider] does for it, raising included, is what the loop
    does; no later model is tried. *)
Lemma auto_select_first_model (m : string) (rest : list string)
    (body : list (string * json)) (model : string) (ap : option string)
    (w : World) :
  auto (m :: rest) body model ap w
  = match get_provider m body w with
    | (inl e, w') => (inl e, w')
    | (inr p, w') => (inr (m, Some p), w')
    end.
Proof.
  cbn [auto_select]. unfold bind at 1.
  destruct (get_provider m body w) as [[e|p] w'] eqn:Hget; [reflexivity|].
  rewrite (get_api_provider_truthy _ _ _ _ _ Hget). reflexivity.
Qed.


(** Only an [HTTPException] leaves [handle_post_request]. *)
Lemma handle_post_request_raises_http (request_json : exn + json)
    (path : string) (w w' : World) (e : exn) :
  handle_post request_json path w = (inl e, w') -> is_HTTPException e = true.
Proof.
  unfold handle_post_request, try_except.
  match goal with |- context [bind ?m ?k w] => destruct (bind m k w) as [[e0|r] w0] end;
    [|discriminate].
  destruct (is_HTTPException e0) eqn:He0; unfold raise; intros [= <- _];
    [exact He0 | reflexivity].
Qed.

(** A buffered response is handed to the client as it came, whatever its
    status, and the limiter is not touched. *)
Lemma buffered_response_passes_through (p uri : string) (body : json)
    (cfg : Provider) (status : Z) (text : string) (w : World) :
  API_PROVIDER !! p = Some cfg ->
  upstream_post p uri body = PostResponse status text ->
  handle_non_streaming_request API_PROVIDER clock json_dumps exn_str
    upstream_post p uri body w
  = (inr (mkResponse status "application/json" (Content text)), w).
Proof.
  intros Hcfg Hpost. unfold handle_non_streaming_request.
  rewrite Hcfg, Hpost. reflexivity.
Qed.

(** The status code of a streaming response is fixed before the generator
    has run: it is the default of the context variable. *)
Lemma streaming_response_status (p uri : string) (body : json) (w : World) :
  exists gen,
    handle_streaming_request API_PROVIDER clock json_dumps json_loads
      utf8_decode exn_str upstream_stream p uri body w
    = (inr (mkResponse 200 "text/event-stream" (Streaming gen)), w).
Proof. eexists. reflexivity. Qed.

End GatewayFacts.

(** C1 on the scenario "buffered upstream 429": the client receives status
    429 with the upstream's body, and no entry is added to the error ledger
    of the provider, [increment_error] not being called. *)
Theorem buffered_upstream_error_is_not_recorded (json_dumps : json -> string)
    (exn_str : exn -> string)
    (upstream_stream : string -> string -> json -> stream_outcome)
    (text : string) :
  let answer :=
    demo_post json_dumps exn_str (fun _ _ _ => PostResponse 429 text)
      upstream_stream buffered_request "chat/completions"
      (mkWorld RateLimiter_init 0) in
  fst answer = inr (mkResponse 429 "application/json" (Content text))
  /\ client_status (fst answer) = 429
  /\ ledger_of (rate_limiter (snd answer)) "P1" = []
  /\ error_counters (rate_limiter (snd answer)) = ∅.
Proof. intros answer. vm_compute. repeat split. Qed.

(** C7 on a streaming request for model [A]: when the upstream answers 429
    the generator yields the one error envelope, records the error and
    leaves 429 in the context variable, and when the transport fails after
    the chunks the generator yields a final error object and leaves 500
    there; the status code of the response is 200 both times. *)
Theorem streaming_status_code_is_200 (json_dumps : json -> string)
    (exn_str : exn -> string)
    (upstream_post : string -> string -> json -> post_outcome)
    (chunks : list string) (e : exn) :
  let serve upstream :=
    demo_post json_dumps exn_str upstream_post upstream streaming_request
      "chat/completions" (mkWorld RateLimiter_init 0) in
  let refused := serve (fun _ _ _ => StreamResponse 429 chunks None) in
  let broken := serve (fun _ _ _ => StreamResponse 200 chunks (Some e)) in
  client_status (fst refused) = 200
  /\ fst <$> stream_result refused
     = Some ([json_dumps (JObj [("error", JStr "rate")])], 429)
  /\ (fun end_ => length (ledger_of (rate_limiter (snd end_)) "P1"))
       <$> stream_result refused = Some 1%nat
  /\ client_status (fst broken) = 200
  /\ fst <$> stream_result broken
     = Some ((chunks ++ [json_dumps (JObj [("error", JStr (exn_str e))])])%list,
             500).
Proof. intros serve refused broken. vm_compute. repeat split. Qed.

(** C2 on the scenario "auto routing": the first [auto] request is served
    by [A]/[P1]; the second finds [P1] at its rpm limit and is answered
    with status 429, the selection raised for model [A] ending the loop
    before model [B] is looked at: nothing is admitted or committed on
    [P2]. *)
Theorem auto_does_not_fall_through (json_dumps : json -> string)
    (exn_str : exn -> string)
    (upstream_stream : string -> string -> json -> stream_outcome) :
  let serve :=
    demo_post json_dumps exn_str (fun _ _ _ => PostResponse 200 "ok")
      upstream_stream auto_request "chat/completions" in
  let first := serve (mkWorld RateLimiter_init 0) in
  let second := serve (snd first) in
  fst first = inr (mkResponse 200 "application/json" (Content "ok"))
  /\ length (rpm (counter_of (rate_limiter (snd first)) "P1")) = 1%nat
  /\ fst second = inl no_capacity
  /\ client_status (fst second) = 429
  /\ counters (rate_limiter (snd second)) !! "P2" = None.
Proof. intros serve first second. vm_compute. repeat split. Qed.


(** C6 as stated fails: [check_limit] accepts a provider that
    [is_error_limited] reports in penalty with nine minutes to go. *)
Lemma check_limit_accepts_penalised_provider :
  fst (is_error_limited penalised "P1" (timedelta_minutes 1)) = (true, 9)
  /\ fst (check_limit penalised "P1" (mkLimits (Some 1) None None None) 0
            (timedelta_minutes 1)) = (true, "").
Proof. split; vm_compute; reflexivity. Qed.

(** ** The theorems at concrete inputs *)

(** The tpm ceiling with the numbers of [test_tpm_limit]: 300 tokens
    committed, limit 500, a request of 250 tokens. *)
Lemma check_limit_tpm_iff_witness :
  (limit_tpm (mkLimits None (Some 500) None None) = Some 500
   /\ rpm_not_binding committed_300 "P1" (mkLimits None (Some 500) None None) 1)
  /\ (fst (check_limit committed_300 "P1" (mkLimits None (Some 500) None None)
             250 1) = (false, "TPM limit exceeded")
      <-> 500 < window_total
                  (popleft_expired 1 (tpm (counter_of committed_300 "P1"))) + 250).
Proof.
  split; [split; [reflexivity | exact I]|].
  apply (check_limit_tpm_iff committed_300 "P1"
           (mkLimits None (Some 500) None None) 500 250 1);
    [reflexivity | exact I].
Defined.

(** The error back-off one minute after a first recorded error. *)
Lemma is_error_limited_iff_witness :
  newest 0 (recent_errors (timedelta_minutes 1)
              (ledger_of (run [OpIncrementError "P1" 0] RateLimiter_init) "P1"))
  /\ (fst (fst (is_error_limited penalised "P1" (timedelta_minutes 1))) = true
      <-> timedelta_minutes 1 < timedelta_minutes 10).
Proof.
  assert (Hnew : newest 0 (recent_errors (timedelta_minutes 1)
              (ledger_of (run [OpIncrementError "P1" 0] RateLimiter_init) "P1"))).
  { split; [left; reflexivity|].
    change (Forall (fun e : Z * Z => fst e <= 0) [(0, 1)]).
    constructor; [simpl; lia | constructor]. }
  split; [exact Hnew|].
  exact (proj1 (is_error_limited_iff [OpIncrementError "P1" 0] "P1"
                  (timedelta_minutes 1) 0 Hnew)).
Defined.

(** Two commits after a first admit. *)
Lemma commits_accumulate_witness :
  exists self',
    increments (snd (check_limit RateLimiter_init "P1" no_limits 0 0)) "P1"
      [(0, 300); (1, 250)] = inr self'
    /\ window_total (tpm (counter_of self' "P1")) = 550
    /\ length (rpm (counter_of self' "P1")) = 2%nat
    /\ rpd (counter_of self' "P1") = 2
    /\ prune_counter 2 (counter_of self' "P1") = counter_of self' "P1".
Proof.
  apply (commits_accumulate
           (snd (check_limit RateLimiter_init "P1" no_limits 0 0)) "P1"
           new_counter [(0, 300); (1, 250)] 2);
    [reflexivity | reflexivity | reflexivity|].
  repeat constructor; simpl; unfold timedelta_minutes; lia.
Defined.

(** The bindings [P1; P2] with [P1] in penalty: the selection continues
    with [P2]. *)
Lemma error_limited_binding_is_skipped_witness :
  select_provider demo_API_PROVIDER demo_clock
    [("P1", mkBinding None None); ("P2", mkBinding None None)] 0
    (mkWorld penalised 0)
  = select_provider demo_API_PROVIDER demo_clock
      [("P2", mkBinding None None)] 0
      (mkWorld (snd (is_error_limited penalised "P1" (demo_clock 0))) 1).
Proof.
  refine (proj1 (error_limited_binding_is_skipped demo_API_PROVIDER demo_clock
                   "P1"
                   (mkProvider "http://p1" None
                      (Some (mkLimits (Some 1) None None None)))
                   (mkBinding None None) [("P2", mkBinding None None)] 0
                   (mkWorld penalised 0) _ _ _));
    [reflexivity | discriminate | reflexivity].
Defined.


(** A commit on [P1] after a history that admitted and committed on [P2]
    only. *)
Lemma increment_before_check_limit_raises_witness :
  never_checked "P1"
    [OpIncrementError "P1" 0; OpCheckLimit "P2" no_limits 0 0;
     OpIncrement "P2" 0 0] = true
  /\ increment
       (run [OpIncrementError "P1" 0; OpCheckLimit "P2" no_limits 0 0;
             OpIncrement "P2" 0 0] RateLimiter_init) "P1" 5 1
     = inl (KeyError "P1").
Proof.
  split; [reflexivity|].
  exact (proj1 (proj2 (increment_before_check_limit_raises
                         [OpIncrementError "P1" 0;
                          OpCheckLimit "P2" no_limits 0 0;
                          OpIncrement "P2" 0 0] "P1" 5 1 eq_refl))).
Defined.

(** ** Further properties of the rate limiter *)

Lemma check_limit_verdict (self : RateLimiter) (p : string) (lim : Limits)
    (t now : Z) :
  fst (check_limit self p lim t now)
  = check_counter (prune_counter now (counter_of self p)) lim t.
Proof.
  unfold check_limit, counter_of. simpl.
  destruct (counters self !! p); reflexivity.
Qed.

Lemma check_counter_accepts_iff (c : Counter) (lim : Limits) (t : Z) :
  fst (check_counter c lim t) = true <-> within_limits c lim t.
Proof.
  unfold check_counter, check_rpm, check_tpm, check_tpr, check_rpd,
    within_limits.
  rewrite py_sum_window.
  destruct (limit_rpm lim) as [K|], (limit_tpm lim) as [L|],
    (limit_tpr lim) as [R|], (limit_rpd lim) as [D|]; simpl;
    repeat match goal with
      | |- context [?a <=? ?b] => destruct (Z.leb_spec a b); simpl
      | |- context [?a <? ?b] => destruct (Z.ltb_spec a b); simpl
      end;
    (split;
     [ intros Hacc; try discriminate Hacc;
       repeat split; intros ? [= <-]; lia
     | intros (Hrpm & Htpm & Htpr & Hrpd);
       try reflexivity;
       try (specialize (Hrpm _ eq_refl); lia);
       try (specialize (Htpm _ eq_refl); lia);
       try (specialize (Htpr _ eq_refl); lia);
       try (specialize (Hrpd _ eq_refl); lia) ]).
Qed.

(** X1: [check_limit] accepts exactly when every configured ceiling leaves
    room on the pruned counter (fewer than rpm requests in the window, the
    window's tokens plus the request's within tpm, the request within tpr,
    the daily count below rpd), and it accepts with the empty reason. *)
Theorem check_limit_accepts_iff (self : RateLimiter) (p : string)
    (lim : Limits) (t now : Z) :
  (fst (fst (check_limit self p lim t now)) = true
   <-> within_limits (prune_counter now (counter_of self p)) lim t)
  /\ (fst (check_limit self p lim t now) = (true, "")
      \/ fst (fst (check_limit self p lim t now)) = false).
Proof.
  rewrite check_limit_verdict. split; [apply check_counter_accepts_iff|].
  unfold check_counter.
  destruct (check_rpm _ _); [by right|].
  destruct (check_tpm _ _ _); [by right|].
  destruct (check_tpr _ _); [by right|].
  destruct (check_rpd _ _); [by right | by left].
Qed.

(** X2: the rpm ceiling is checked first: [check_limit] answers "RPM limit
    exceeded" exactly when rpm is configured and the pruned request window
    holds at least that many entries, whatever the other ceilings say. *)
Theorem check_limit_rpm_iff (self : RateLimiter) (p : string) (lim : Limits)
    (t now : Z) :
  fst (check_limit self p lim t now) = (false, "RPM limit exceeded")
  <-> exists K, limit_rpm lim = Some K
                /\ K <= Z.of_nat (length (popleft_expired now
                                            (rpm (counter_of self p)))).
Proof.
  rewrite check_limit_verdict.
  unfold check_counter, check_rpm, check_tpm, check_tpr, check_rpd. simpl.
  destruct (limit_rpm lim) as [K|].
  - destruct (Z.leb_spec K (Z.of_nat (length (popleft_expired now
                                            (rpm (counter_of self p)))))).
    + split; [eauto | reflexivity].
    + split; [|intros (K' & [= <-] & HK); lia].
      repeat case_match; simplify_eq; discriminate.
  - split; [|intros (K' & [=] & _)].
    repeat case_match; simplify_eq; discriminate.
Qed.

(** X3: a request of more tokens than tpr is never accepted, whatever the
    state of the limiter; when the rpm and tpm checks let it through, the
    reason names both numbers. *)
Theorem check_limit_tpr (self : RateLimiter) (p : string) (lim : Limits)
    (R t now : Z) :
  limit_tpr lim = Some R ->
  R < t ->
  fst (fst (check_limit self p lim t now)) = false
  /\ (check_rpm (prune_counter now (counter_of self p)) lim = None ->
      check_tpm (prune_counter now (counter_of self p)) lim t = None ->
      snd (fst (check_limit self p lim t now))
      = "Token per request limit exceeded: " +:+ pretty t +:+ " > " +:+ pretty R).
Proof.
  intros HR Hlt. rewrite check_limit_verdict.
  unfold check_counter, check_tpr. rewrite HR.
  destruct (Z.ltb_spec R t); [|lia].
  split.
  - destruct (check_rpm _ _); [reflexivity|].
    destruct (check_tpm _ _ _); reflexivity.
  - intros -> ->. reflexivity.
Qed.

(** [reset_daily_counts] zeroes the daily count of every provider and
    changes nothing else. *)
Lemma reset_daily_counts_counter (self : RateLimiter) (p : string) :
  counter_of (reset_daily_counts self) p
  = mkCounter (rpm (counter_of self p)) (tpm (counter_of self p)) 0
  /\ (is_Some (counters (reset_daily_counts self) !! p)
      <-> is_Some (counters self !! p))
  /\ error_counters (reset_daily_counts self) = error_counters self.
Proof.
  unfold counter_of, reset_daily_counts. simpl. rewrite lookup_fmap.
  destruct (counters self !! p) as [c|]; simpl; repeat split;
    try reflexivity; intros [x Hx]; try discriminate; eauto.
Qed.

(** X4: after [reset_daily_counts] a positive rpd ceiling no longer stands
    in the way: [check_limit] decides as it would have decided without an
    rpd ceiling, the windows being untouched by the reset. *)
Theorem reset_daily_counts_reopens (self : RateLimiter) (p : string)
    (lim : Limits) (D t now : Z) :
  limit_rpd lim = Some D ->
  0 < D ->
  fst (check_limit (reset_daily_counts self) p lim t now)
  = fst (check_limit self p
           (mkLimits (limit_rpm lim) (limit_tpm lim) (limit_tpr lim) None)
           t now).
Proof.
  intros HD Hpos. rewrite !check_limit_verdict.
  destruct (reset_daily_counts_counter self p) as (-> & _ & _).
  unfold check_counter, check_rpm, check_tpm, check_tpr, check_rpd,
    prune_counter. simpl. rewrite HD.
  destruct (Z.leb_spec D 0); [lia|]. reflexivity.
Qed.

(** *** An invariant of the counters *)

Lemma popleft_expired_timestamps (now : Z) (q1 q2 : list (Z * Z)) :
  map fst q1 = map fst q2 ->
  map fst (popleft_expired now q1) = map fst (popleft_expired now q2).
Proof.
  revert q2. induction q1 as [|[ts a] q1 IH]; intros [|[ts' a'] q2] Heq;
    try discriminate; [reflexivity|].
  simpl in Heq. injection Heq as <- Heq. simpl.
  destruct (timedelta_minutes 1 <? now - ts); [by apply IH|].
  simpl. by f_equal.
Qed.

Lemma aligned_prune (now : Z) (c : Counter) :
  aligned c -> aligned (prune_counter now c).
Proof.
  intros (Hts & Hone & Hrpd). unfold aligned, prune_counter. simpl.
  split; [by apply popleft_expired_timestamps|]. split; [|exact Hrpd].
  destruct (popleft_expired_dropped now (rpm c)) as (dropped & Hq & _).
  rewrite Hq in Hone. by apply Forall_app in Hone as [_ Hone].
Qed.

Lemma aligned_new_counter : aligned new_counter.
Proof. repeat split; [constructor | reflexivity]. Qed.

Lemma aligned_step (self : RateLimiter) (o : op) :
  (forall p, aligned (counter_of self p)) ->
  forall p, aligned (counter_of (step self o) p).
Proof.
  intros Hself q.
  destruct o as [p lim t now|p t now| |p now|p now|now|cfg now| ];
    cbn [step].
  - rewrite counter_of_check_limit.
    case_decide; [by apply aligned_prune | apply Hself].
  - destruct (increment self p t now) as [e|self'] eqn:Hinc; [apply Hself|].
    destruct (counter_of_increment _ _ _ _ _ Hinc) as (_ & _ & ->).
    case_decide; [|apply Hself].
    destruct (Hself p) as (Hts & Hone & Hrpd).
    unfold aligned. simpl. rewrite !map_app, Hts. simpl.
    split; [reflexivity|]. split; [|lia].
    apply Forall_app. split; [exact Hone | by repeat constructor].
  - destruct (reset_daily_counts_counter self q) as (-> & _ & _).
    destruct (Hself q) as (Hts & Hone & Hrpd). by repeat split.
  - apply Hself.
  - unfold counter_of. rewrite counters_is_error_limited. apply Hself.
  - apply Hself.
  - unfold counter_of, get_usage_stats. simpl. rewrite lookup_fmap.
    specialize (Hself q). unfold counter_of in Hself.
    destruct (counters self !! q); simpl in *;
      [by apply aligned_prune | exact Hself].
  - unfold counter_of, reset_all_limits. simpl. rewrite lookup_fmap.
    destruct (counters self !! q); simpl; apply aligned_new_counter.
Qed.

(** X5: in every state the limiter can reach, the request window and the
    token window of a provider hold the same timestamps in the same order,
    every entry of the request window weighs 1 (its length is the number of
    requests it stands for), and the daily count is not negative. *)
Theorem counters_stay_aligned (ops : list op) (p : string) :
  let c := counter_of (run ops RateLimiter_init) p in
  map fst (rpm c) = map fst (tpm c)
  /\ length (rpm c) = length (tpm c)
  /\ window_total (rpm c) = Z.of_nat (length (rpm c))
  /\ 0 <= rpd c.
Proof.
  intros c.
  assert (Hall : forall self, (forall q, aligned (counter_of self q)) ->
                              forall q, aligned (counter_of (run ops self) q)).
  { induction ops as [|o ops' IH]; intros self Hself; [exact Hself|].
    unfold run. simpl. apply IH. by apply aligned_step. }
  destruct (Hall RateLimiter_init (fun q => aligned_new_counter) p)
    as (Hts & Hone & Hrpd).
  fold c in Hts, Hone, Hrpd.
  split; [exact Hts|]. split; [|split; [|exact Hrpd]].
  - by rewrite <- (length_map fst (rpm c)), Hts, length_map.
  - by apply unit_events_total.
Qed.

(** *** Pruning *)

Lemma filter_all {A : Type} (f : A -> bool) (l : list A) :
  Forall (fun x => f x = true) l -> List.filter f l = l.
Proof.
  induction 1 as [|x l Hx _ IH]; simpl; [reflexivity|].
  by rewrite Hx, IH.
Qed.

(** Pruning an ordered window is filtering it. *)
Lemma popleft_expired_filter (now : Z) (q : list (Z * Z)) :
  ordered q ->
  popleft_expired now q = List.filter (fresh now) q
  /\ Forall (fun e => now - fst e <= timedelta_minutes 1)
       (popleft_expired now q).
Proof.
  induction q as [|[ts a] q IH]; intros Hord; [split; [reflexivity|constructor]|].
  destruct Hord as [Hhead Hord]. simpl. unfold fresh at 1. simpl.
  destruct (Z.ltb_spec (timedelta_minutes 1) (now - ts)) as [Hold|Hfresh]; simpl.
  - by apply IH.
  - assert (Hall : Forall (fun e => now - fst e <= timedelta_minutes 1) q).
    { eapply Forall_impl; [exact Hhead|]. intros e He. simpl in He. lia. }
    split.
    + f_equal. symmetry. apply filter_all.
      eapply Forall_impl; [exact Hall|]. intros e He. simpl in He.
      unfold fresh.
      destruct (Z.ltb_spec (timedelta_minutes 1) (now - fst e)); [lia|reflexivity].
    + constructor; [exact Hfresh | exact Hall].
Qed.

(** X6: on a window that is in the order of its timestamps, pruning removes
    exactly the entries that are more than a minute old: what is left is
    the window filtered to its fresh entries. *)
Theorem popleft_expired_ordered (now : Z) (q : list (Z * Z)) :
  ordered q ->
  popleft_expired now q = List.filter (fresh now) q
  /\ Forall (fun e => now - fst e <= timedelta_minutes 1)
       (popleft_expired now q).
Proof. apply popleft_expired_filter. Qed.

Lemma popleft_expired_later (now1 now2 : Z) (q : list (Z * Z)) :
  now1 <= now2 ->
  popleft_expired now2 (popleft_expired now1 q) = popleft_expired now2 q.
Proof.
  intros Hle. induction q as [|[ts a] q IH]; [reflexivity|]. simpl.
  destruct (Z.ltb_spec (timedelta_minutes 1) (now1 - ts)) as [Hold|Hfresh].
  - destruct (Z.ltb_spec (timedelta_minutes 1) (now2 - ts)); [exact IH | lia].
  - reflexivity.
Qed.

Lemma prune_counter_later (now1 now2 : Z) (c : Counter) :
  now1 <= now2 ->
  prune_counter now2 (prune_counter now1 c) = prune_counter now2 c.
Proof.
  intros Hle. unfold prune_counter. simpl.
  by rewrite !popleft_expired_later.
Qed.

Lemma counter_of_get_usage_stats (cfg : gmap string Provider)
    (self : RateLimiter) (now : Z) (p : string) :
  counter_of (snd (get_usage_stats cfg self now)) p
  = prune_counter now (counter_of self p).
Proof.
  unfold counter_of, get_usage_stats. simpl. rewrite lookup_fmap.
  destruct (counters self !! p); reflexivity.
Qed.

(** X7: a usage snapshot is transparent to admission.  [get_usage_stats]
    lists exactly the providers that have a counter entry, with the length
    of the pruned request window, the sum of the pruned token window and
    the daily count as current values, and a [check_limit] made at the same
    time or later decides as if the snapshot had not been taken. *)
Theorem get_usage_stats_transparent (cfg : gmap string Provider)
    (self : RateLimiter) (now1 now2 : Z) (p : string) (lim : Limits) (t : Z) :
  now1 <= now2 ->
  fst (check_limit (snd (get_usage_stats cfg self now1)) p lim t now2)
  = fst (check_limit self p lim t now2)
  /\ (fun u => (fst (usage_rpm u), fst (usage_tpm u), fst (usage_rpd u)))
       <$> (fst (get_usage_stats cfg self now1) !! p)
     = (fun c => (Z.of_nat (length (popleft_expired now1 (rpm c))),
                  window_total (popleft_expired now1 (tpm c)),
                  rpd c)) <$> (counters self !! p).
Proof.
  intros Hle. split.
  - rewrite !check_limit_verdict, counter_of_get_usage_stats.
    by rewrite prune_counter_later.
  - unfold get_usage_stats. simpl. rewrite map_lookup_imap, lookup_fmap.
    destruct (counters self !! p) as [c|]; simpl; [|reflexivity].
    by rewrite py_sum_window.
Qed.

(** X8: after [reset_all_limits] every provider is judged as a new one
    ([check_limit] decides on an empty counter), no provider is in error
    penalty, and the providers that had a counter entry keep one, so that a
    commit for them still goes through. *)
Theorem reset_all_limits_fresh (self : RateLimiter) (p : string)
    (lim : Limits) (t now : Z) :
  fst (check_limit (reset_all_limits self) p lim t now)
  = check_counter new_counter lim t
  /\ is_error_limited (reset_all_limits self) p now
     = ((false, 0), reset_all_limits self)
  /\ (is_Some (counters (reset_all_limits self) !! p)
      <-> is_Some (counters self !! p))
  /\ (increment (reset_all_limits self) p t now = inl (KeyError p)
      <-> increment self p t now = inl (KeyError p)).
Proof.
  assert (Hlook : counters (reset_all_limits self) !! p
                  = (fun _ => new_counter) <$> counters self !! p)
    by apply lookup_fmap.
  split; [|split; [|split]].
  - rewrite check_limit_verdict. unfold counter_of. rewrite Hlook.
    destruct (counters self !! p); reflexivity.
  - unfold is_error_limited, reset_all_limits. simpl.
    by rewrite lookup_empty.
  - rewrite Hlook. destruct (counters self !! p); simpl;
      split; intros [x Hx]; try discriminate; eauto.
  - unfold increment. rewrite Hlook.
    destruct (counters self !! p); simpl; split; congruence.
Qed.

(** ** Further properties of the error ledger *)

Lemma recent_errors_later (now1 now2 : Z) (evs : list (Z * Z)) :
  now1 <= now2 ->
  recent_errors now2 (recent_errors now1 evs) = recent_errors now2 evs.
Proof.
  intros Hle. unfold recent_errors.
  induction evs as [|[ts n] evs IH]; [reflexivity|]. simpl.
  destruct (Z.ltb_spec (now1 - timedelta_hours 24) ts) as [H1|H1]; simpl.
  - by rewrite IH.
  - destruct (Z.ltb_spec (now2 - timedelta_hours 24) ts); [lia | exact IH].
Qed.

Lemma recent_errors_app (now : Z) (evs1 evs2 : list (Z * Z)) :
  recent_errors now (evs1 ++ evs2)
  = (recent_errors now evs1 ++ recent_errors now evs2)%list.
Proof. apply List.filter_app. Qed.

Lemma recent_errors_In (now : Z) (evs : list (Z * Z)) (e : Z * Z) :
  In e (recent_errors now evs) <-> In e evs /\ now - timedelta_hours 24 < fst e.
Proof.
  unfold recent_errors. rewrite List.filter_In, Z.ltb_lt. reflexivity.
Qed.

(** The answer of [is_error_limited] when the pruned ledger is not empty. *)
Lemma is_error_limited_recent (self : RateLimiter) (p : string) (now : Z)
    (t0 c0 : Z) (rest : list (Z * Z)) :
  recent_errors now (ledger_of self p) = (t0, c0) :: rest ->
  fst (is_error_limited self p now)
  = let limit_end_time :=
      py_max t0 (map fst rest)
      + timedelta_minutes
          (Z.min (py_sum (map snd ((t0, c0) :: rest)) * 10) (24 * 60)) in
    if now <? limit_end_time
    then (true, Z.quot (limit_end_time - now) (timedelta_minutes 1))
    else (false, 0).
Proof.
  unfold ledger_of, is_error_limited.
  destruct (error_counters self !! p) as [[|e l]|]; simpl;
    try (intros Hrec; discriminate Hrec).
  intros ->. simpl. by case_match.
Qed.

(** X9: recording an error puts the provider in penalty at once.  In a
    state the limiter can reach whose recorded errors of the provider are
    not in the future, [increment_error] returns the number n of errors of
    the last 24 hours, the new one included, and [is_error_limited] asked at
    that same time reports the provider limited for min(10 n, 1440)
    minutes. *)
Theorem increment_error_then_limited (ops : list op) (p : string) (now : Z) :
  let self := run ops RateLimiter_init in
  Forall (fun e => fst e <= now) (ledger_of self p) ->
  let n := fst (increment_error self p now) in
  n = Z.of_nat (length (recent_errors now (ledger_of self p))) + 1
  /\ fst (is_error_limited (snd (increment_error self p now)) p now)
     = (true, Z.min (10 * n) 1440).
Proof.
  intros self Hpast n.
  assert (Hunit : unit_events (ledger_of self p)).
  { unfold ledger_of.
    destruct (error_counters self !! p) as [evs|] eqn:Hp; [|constructor].
    exact (unit_ledgers_run ops _ unit_ledgers_init p evs Hp). }
  set (rec := recent_errors now (ledger_of self p)).
  assert (Hn : n = Z.of_nat (length rec) + 1).
  { subst n rec. unfold increment_error, ledger_of in *. simpl.
    destruct (error_counters self !! p); simpl in *; [|reflexivity].
    rewrite py_sum_window, unit_events_total;
      auto using unit_events_recent. }
  split; [exact Hn|].
  assert (Hledger : ledger_of (snd (increment_error self p now)) p
                    = (rec ++ [(now, 1)])%list).
  { subst rec. unfold ledger_of, increment_error. simpl.
    rewrite lookup_insert_eq. simpl.
    destruct (error_counters self !! p); reflexivity. }
  assert (Hstill : recent_errors now (rec ++ [(now, 1)])
                   = (rec ++ [(now, 1)])%list).
  { rewrite recent_errors_app. subst rec.
    rewrite recent_errors_later by lia. f_equal.
    unfold recent_errors, timedelta_hours. simpl.
    destruct (Z.ltb_spec (now - 24 * 3600000000) now); [reflexivity | lia]. }
  destruct (rec ++ [(now, 1)])%list as [|[t0 c0] rest] eqn:Hshape.
  { by destruct rec. }
  rewrite (is_error_limited_recent _ _ _ t0 c0 rest)
    by (rewrite Hledger; exact Hstill).
  assert (Hnew : newest now ((t0, c0) :: rest)).
  { rewrite <- Hshape. split.
    - rewrite map_app. apply in_or_app. right. by left.
    - apply Forall_app. split; [|by repeat constructor].
      rewrite List.Forall_forall in Hpast |- *. intros e He.
      apply Hpast. subst rec. by apply recent_errors_In in He as [He _]. }
  assert (Hone : unit_events ((t0, c0) :: rest)).
  { rewrite <- Hshape. apply Forall_app. split; [|by repeat constructor].
    subst rec. by apply unit_events_recent. }
  assert (Hlen : Z.of_nat (length ((t0, c0) :: rest)) = n).
  { rewrite <- Hshape, length_app. simpl. lia. }
  cbv zeta. rewrite (py_max_newest _ _ _ _ Hnew).
  rewrite py_sum_window, (unit_events_total _ Hone), Hlen.
  replace (n * 10) with (10 * n) by lia.
  replace (24 * 60) with 1440 by reflexivity.
  assert (Hpos : 0 < Z.min (10 * n) 1440) by lia.
  unfold timedelta_minutes.
  destruct (Z.ltb_spec now (now + Z.min (10 * n) 1440 * 60000000)); [|lia].
  f_equal. replace (now + Z.min (10 * n) 1440 * 60000000 - now)
    with (Z.min (10 * n) 1440 * 60000000) by lia.
  change (1 * 60000000) with 60000000. by rewrite Z.quot_mul.
Qed.

(** X10: errors expire.  When every recorded error of a provider is at
    least 24 hours old, [is_error_limited] reports the provider free and
    leaves its ledger empty. *)
Theorem is_error_limited_expired (self : RateLimiter) (p : string) (now : Z) :
  Forall (fun e => fst e <= now - timedelta_hours 24) (ledger_of self p) ->
  fst (is_error_limited self p now) = (false, 0)
  /\ ledger_of (snd (is_error_limited self p now)) p = [].
Proof.
  intros Hold.
  assert (Hrec : recent_errors now (ledger_of self p) = []).
  { destruct (recent_errors now (ledger_of self p)) as [|e rest] eqn:Hrec;
      [reflexivity|].
    assert (He : In e (recent_errors now (ledger_of self p)))
      by (rewrite Hrec; by left).
    apply recent_errors_In in He as [He Hts].
    rewrite List.Forall_forall in Hold. specialize (Hold e He). lia. }
  split; [by apply is_error_limited_no_recent_error|].
  unfold ledger_of, is_error_limited in *.
  destruct (error_counters self !! p) as [[|e l]|] eqn:Hp; simpl in *;
    try (by rewrite Hp).
  rewrite Hrec. simpl. by rewrite lookup_insert_eq.
Qed.

(** X11: the periodic sweep is transparent.  After
    [cleanup_error_counters] no provider is left with an empty ledger and
    every event kept is less than 24 hours old, and [is_error_limited] asked
    at the time of the sweep or later answers as it would have without the
    sweep. *)
Theorem cleanup_error_counters_transparent (self : RateLimiter)
    (now1 now2 : Z) (p : string) :
  now1 <= now2 ->
  fst (is_error_limited (cleanup_error_counters self now1) p now2)
  = fst (is_error_limited self p now2)
  /\ error_counters (cleanup_error_counters self now1) !! p <> Some []
  /\ Forall (fun e => now1 - timedelta_hours 24 < fst e)
       (ledger_of (cleanup_error_counters self now1) p)
  /\ counters (cleanup_error_counters self now1) = counters self.
Proof.
  intros Hle.
  assert (Hledger : ledger_of (cleanup_error_counters self now1) p
                    = recent_errors now1 (ledger_of self p)).
  { unfold ledger_of, cleanup_error_counters. simpl. rewrite lookup_omap.
    destruct (error_counters self !! p) as [evs|]; simpl; [|reflexivity].
    by destruct (recent_errors now1 evs). }
  assert (Hrec : recent_errors now2 (ledger_of (cleanup_error_counters self now1) p)
                 = recent_errors now2 (ledger_of self p))
    by (rewrite Hledger; by apply recent_errors_later).
  split; [|split; [|split; [|reflexivity]]].
  - destruct (recent_errors now2 (ledger_of self p)) as [|[t0 c0] rest] eqn:Hshape.
    + by rewrite !is_error_limited_no_recent_error.
    + by rewrite !(is_error_limited_recent _ _ _ t0 c0 rest).
  - unfold cleanup_error_counters. simpl. rewrite lookup_omap.
    destruct (error_counters self !! p) as [evs|]; simpl; [|discriminate].
    destruct (recent_errors now1 evs); discriminate.
  - rewrite Hledger, List.Forall_forall. intros e He.
    by apply recent_errors_In in He as [_ He].
Qed.

(** ** Further properties of the selector and the dispatcher *)

Section GatewayMore.

Variable API_PROVIDER : gmap string Provider.
Variable MODEL_CONFIG : list (string * list (string * Binding)).
Variable clock : nat -> Z.
Variable json_dumps : json -> string.
Variable json_loads : string -> exn + json.
Variable utf8_decode : string -> exn + string.
Variable encode_len : string -> exn + Z.
Variable exn_str : exn -> string.
Variable upstream_post : string -> string -> json -> post_outcome.
Variable upstream_stream : string -> string -> json -> stream_outcome.

Abbreviation select := (select_provider API_PROVIDER clock).
Abbreviation get_provider :=
  (get_api_provider API_PROVIDER MODEL_CONFIG clock json_dumps encode_len).
Abbreviation handle_post :=
  (handle_post_request API_PROVIDER MODEL_CONFIG clock json_dumps json_loads
     utf8_decode encode_len exn_str upstream_post upstream_stream).
Abbreviation handle_buffered :=
  (handle_non_streaming_request API_PROVIDER clock json_dumps exn_str
     upstream_post).
Abbreviation stream_gen :=
  (generate_stream_response API_PROVIDER clock json_dumps json_loads
     utf8_decode exn_str upstream_stream).

(** One turn of the selection loop, step by step. *)
Lemma select_provider_cons (p : string) (b : Binding)
    (rest : list (string * Binding)) (t : Z) (w : World) :
  select ((p, b) :: rest) t w
  = match API_PROVIDER !! p with
    | None => (inl (KeyError p), w)
    | Some cfg =>
        match enable b with
        | Some false => select rest t w
        | _ =>
            let err := is_error_limited (rate_limiter w) p (clock (ticks w)) in
            if fst (fst err)
            then select rest t (mkWorld (snd err) (S (ticks w)))
            else
              let verdict :=
                check_limit (snd err) p (default no_limits (limits cfg)) t
                  (clock (S (ticks w))) in
              if negb (fst (fst verdict))
              then select rest t (mkWorld (snd verdict) (S (S (ticks w))))
              else
                match increment (snd verdict) p t (clock (S (S (ticks w)))) with
                | inl e =>
                    (inl e, mkWorld (snd verdict) (S (S (S (ticks w)))))
                | inr rl =>
                    (inr (Some p), mkWorld rl (S (S (S (ticks w)))))
                end
        end
    end.
Proof.
  cbn [select_provider]. unfold bind at 1.
  destruct (API_PROVIDER !! p) as [cfg|]; [|reflexivity].
  unfold ret at 1.
  assert (Hgo :
    (now <- datetime_now clock ;;
     err <- with_limiter (fun rl => is_error_limited rl p now) ;;
     if fst err then select rest t
     else
       let lim := default no_limits (limits cfg) in
       now0 <- datetime_now clock ;;
       verdict <- with_limiter (fun rl => check_limit rl p lim t now0) ;;
       if negb (fst verdict) then select rest t
       else
         now1 <- datetime_now clock ;;
         with_limiter_exn (fun rl => increment rl p t now1) ;;
         ret (Some p)) w
    = let err := is_error_limited (rate_limiter w) p (clock (ticks w)) in
      if fst (fst err)
      then select rest t (mkWorld (snd err) (S (ticks w)))
      else
        let verdict :=
          check_limit (snd err) p (default no_limits (limits cfg)) t
            (clock (S (ticks w))) in
        if negb (fst (fst verdict))
        then select rest t (mkWorld (snd verdict) (S (S (ticks w))))
        else
          match increment (snd verdict) p t (clock (S (S (ticks w)))) with
          | inl e => (inl e, mkWorld (snd verdict) (S (S (S (ticks w)))))
          | inr rl => (inr (Some p), mkWorld rl (S (S (S (ticks w)))))
          end).
  { cbv beta iota zeta
      delta [bind datetime_now with_limiter with_limiter_exn ret
             rate_limiter ticks fst snd negb].
    destruct (is_error_limited _ p (clock _)) as [[limited minutes] rl1].
    destruct limited; [reflexivity|].
    cbv beta iota zeta delta [rate_limiter ticks fst snd negb].
    destruct (check_limit rl1 p _ t (clock _)) as [[ok reason] rl2].
    destruct ok; [|reflexivity].
    cbv beta iota zeta delta [rate_limiter ticks fst snd negb].
    destruct (increment rl2 p t (clock _)); reflexivity. }
  destruct (enable b) as [[|]|]; [exact Hgo | reflexivity | exact Hgo].
Qed.

Lemma rpd_of_is_error_limited (w : World) (p : string) (now : Z) (n : nat)
    (q : string) :
  rpd_of (mkWorld (snd (is_error_limited (rate_limiter w) p now)) n) q
  = rpd_of w q.
Proof. unfold rpd_of, counter_of. simpl. by rewrite counters_is_error_limited. Qed.

(** X12: selection charges exactly the provider it returns.  When every
    binding of the list names a configured provider, the selection loop
    ends without an exception; if it returns a provider, that provider is
    one of the bindings, is not disabled, and its daily count has grown by
    exactly one while the daily count of every other provider is unchanged;
    if it returns none, no daily count has changed. *)
Theorem select_provider_accounting (bindings : list (string * Binding))
    (t : Z) (w : World) :
  configured API_PROVIDER bindings ->
  exists r w',
    select bindings t w = (inr r, w')
    /\ match r with
       | Some p =>
           (exists b, In (p, b) bindings /\ enable b <> Some false)
           /\ forall q, rpd_of w' q
                        = if decide (p = q) then rpd_of w q + 1 else rpd_of w q
       | None => forall q, rpd_of w' q = rpd_of w q
       end.
Proof.
  intros Hcfg. revert w.
  induction bindings as [|[p b] rest IH]; intros w.
  { exists None, w. split; [reflexivity | reflexivity]. }
  apply Forall_cons in Hcfg as [[cfg Hp] Hrest]. simpl in Hp.
  specialize (IH Hrest).
  assert (Hlater : forall w1,
    (forall q, rpd_of w1 q = rpd_of w q) ->
    exists r w',
      select rest t w1 = (inr r, w')
      /\ match r with
         | Some p0 =>
             (exists b0, In (p0, b0) ((p, b) :: rest) /\ enable b0 <> Some false)
             /\ forall q, rpd_of w' q
                          = if decide (p0 = q) then rpd_of w q + 1 else rpd_of w q
         | None => forall q, rpd_of w' q = rpd_of w q
         end).
  { intros w1 Hsame. destruct (IH w1) as (r & w' & Hsel & Hr).
    exists r, w'. split; [exact Hsel|].
    destruct r as [p0|].
    - destruct Hr as [(b0 & Hin & Hen) Hq].
      split; [exists b0; split; [by right | exact Hen]|].
      intros q. by rewrite Hq, Hsame.
    - intros q. by rewrite Hr. }
  rewrite select_provider_cons, Hp. cbv zeta.
  set (err := is_error_limited (rate_limiter w) p (clock (ticks w))).
  set (lim := default no_limits (limits cfg)).
  set (verdict := check_limit (snd err) p lim t (clock (S (ticks w)))).
  assert (Herr : forall q n, rpd_of (mkWorld (snd err) n) q = rpd_of w q)
    by (intros; apply rpd_of_is_error_limited).
  assert (Hver : forall q n, rpd_of (mkWorld (snd verdict) n) q = rpd_of w q).
  { intros q n. unfold rpd_of, verdict. cbn [rate_limiter].
    destruct (check_limit_frame (snd err) p lim t (clock (S (ticks w))) q)
      as [-> _].
    apply (Herr q 0%nat). }
  destruct (decide (enable b = Some false)) as [Hen|Hen].
  { rewrite Hen. by apply Hlater. }
  replace (match enable b with
           | Some false => select rest t w
           | _ => _
           end)
    with (if fst (fst err)
          then select rest t (mkWorld (snd err) (S (ticks w)))
          else
            if negb (fst (fst verdict))
            then select rest t (mkWorld (snd verdict) (S (S (ticks w))))
            else
              match increment (snd verdict) p t (clock (S (S (ticks w)))) with
              | inl e => (inl e, mkWorld (snd verdict) (S (S (S (ticks w)))))
              | inr rl => (inr (Some p), mkWorld rl (S (S (S (ticks w)))))
              end)
    by (destruct (enable b) as [[|]|]; congruence).
  destruct (fst (fst err)); [apply Hlater; intros q; apply Herr|].
  destruct (fst (fst verdict)); cbn [negb];
    [|apply Hlater; intros q; apply Hver].
  destruct (increment_after_check_limit (snd err) p lim t (clock (S (ticks w)))
              t (clock (S (S (ticks w))))) as [rl3 Hinc].
  fold verdict in Hinc. rewrite Hinc.
  exists (Some p), (mkWorld rl3 (S (S (S (ticks w))))).
  split; [reflexivity|]. split; [exists b; split; [by left | exact Hen]|].
  intros q. unfold rpd_of at 1. cbn [rate_limiter].
  destruct (counter_of_increment _ _ _ _ _ Hinc) as (_ & _ & ->).
  pose proof (Hver q 0%nat) as Hq. pose proof (Hver p 0%nat) as Hpp.
  unfold rpd_of at 1 in Hq. unfold rpd_of at 1 in Hpp.
  cbn [rate_limiter] in Hq, Hpp.
  case_decide; subst; cbn [rpd]; congruence.
Qed.

(** X13: a disabled binding is passed over without a clock reading and
    without a look at the limiter, provided its provider is configured; the
    provider entry is fetched before the flag is read, so a binding to a
    provider that is missing from [api_provider] ends the selection with
    [KeyError] even though it is disabled. *)
Theorem select_provider_disabled (p : string) (b : Binding)
    (rest : list (string * Binding)) (t : Z) (w : World) :
  enable b = Some false ->
  select ((p, b) :: rest) t w
  = match API_PROVIDER !! p with
    | Some _ => select rest t w
    | None => (inl (KeyError p), w)
    end.
Proof.
  intros Hen. rewrite select_provider_cons, Hen.
  by destruct (API_PROVIDER !! p).
Qed.










(** X19: an upstream error on the streaming path.  When the upstream
    answers with a status of 400 or more and its body is read to the end,
    the generator yields exactly one chunk.  If the body decodes as JSON
    the chunk is the error envelope, the status is left in the context
    variable and exactly one event is added to the pruned error ledger of
    the provider, the counters staying as they were; if decoding the bytes
    fails with [UnicodeDecodeError] the chunk is a plain error object and
    the failure of the provider is not recorded. *)
Theorem streaming_upstream_error (p uri : string) (body : json)
    (cfg : Provider) (status : Z) (chunks : list string) (w : World) :
  API_PROVIDER !! p = Some cfg ->
  upstream_stream p uri body = StreamResponse status chunks None ->
  400 <= status ->
  length (fst (fst (stream_gen p uri body 200 w))) = 1%nat
  /\ (forall v, json_loads (String.concat "" chunks) = inr v ->
        fst (stream_gen p uri body 200 w)
        = ([json_dumps (envelope v)], status)
        /\ ledger_of (rate_limiter (snd (stream_gen p uri body 200 w))) p
           = (recent_errors (clock (ticks w)) (ledger_of (rate_limiter w) p)
                ++ [(clock (ticks w), 1)])%list
        /\ counters (rate_limiter (snd (stream_gen p uri body 200 w)))
           = counters (rate_limiter w))
  /\ (json_loads (String.concat "" chunks) = inl UnicodeDecodeError ->
      stream_gen p uri body 200 w
      = (([json_dumps (JObj [("error", JStr (exn_str UnicodeDecodeError))])],
          500), w)).
Proof.
  intros Hcfg Hup Hstatus.
  unfold generate_stream_response, stream_attempt. rewrite Hcfg, Hup.
  destruct (Z.leb_spec 400 status) as [_|]; [|lia].
  split; [|split].
  - destruct (json_loads _) as [e|v].
    + destruct e; try reflexivity. by destruct (utf8_decode _).
    + by destruct v.
  - intros v ->.
    assert (Hshape : match v with
                     | JObj fields => inr (JObj fields)
                     | _ => inr (JObj [("error", v)])
                     end = (inr (envelope v) : exn + json))
      by (by destruct v).
    rewrite Hshape. cbn [fst snd rate_limiter].
    split; [reflexivity|]. split; [|reflexivity].
    unfold ledger_of, increment_error. cbn [error_counters snd].
    rewrite lookup_insert_eq. cbv beta iota delta [default from_option id].
    by destruct (error_counters (rate_limiter w) !! p).
  - intros ->. reflexivity.
Qed.

Lemma append_nil_r (a : string) : a +:+ "" = a.
Proof.
  induction a as [|c a IH]; [reflexivity|].
  change (String c (a +:+ "") = String c a). by f_equal.
Qed.

Lemma append_assoc (a b c : string) : (a +:+ b) +:+ c = a +:+ (b +:+ c).
Proof.
  induction a as [|x a IH]; [reflexivity|].
  change (String x ((a +:+ b) +:+ c) = String x (a +:+ (b +:+ c))).
  by f_equal.
Qed.

(** The extraction raises exactly when some message is a bare [None],
    boolean or number. *)
Lemma extract_messages_raises_iff (messages : list json) (acc : string) :
  (exists e, extract_messages json_dumps messages acc = inl e)
  <-> Exists scalar messages.
Proof.
  revert acc. induction messages as [|message rest IH]; intros acc.
  - split; [intros [e He]; discriminate | intros H; inversion H].
  - rewrite Exists_cons.
    destruct message as [| | | |items|fields]; cbn [extract_messages scalar];
      try (split; [by left | eauto]).
    + rewrite IH. tauto.
    + rewrite IH. tauto.
    + destruct (assoc "content" fields) as [content|]; [|rewrite IH; tauto].
      destruct (truthy content); [|rewrite IH; tauto].
      destruct content; rewrite IH; tauto.
Qed.

Lemma extract_messages_error (messages : list json) (acc : string) (e : exn) :
  extract_messages json_dumps messages acc = inl e ->
  e = TypeError "argument is not iterable".
Proof.
  revert acc. induction messages as [|message rest IH]; intros acc He;
    [discriminate|].
  destruct message as [| | | |items|fields]; cbn [extract_messages] in He;
    try (by injection He); eauto.
  destruct (assoc "content" fields) as [content|]; eauto.
  destruct (truthy content); eauto. destruct content; eauto.
Qed.

(** X20: a message that is a bare [None], boolean or number in the
    [messages] list of a request for a configured model makes the token
    estimate raise before any provider is looked at: the request is
    answered with status 500 and neither the limiter nor the clock is
    touched. *)
Theorem malformed_message_500 (fields : list (string * json))
    (m path : string) (bindings : list (string * Binding))
    (messages : list json) (w : World) :
  assoc "model" fields = Some (JStr m) ->
  String.prefix "auto" m = false ->
  assoc m MODEL_CONFIG = Some bindings ->
  assoc "messages" fields = Some (JArr messages) ->
  Exists scalar messages ->
  handle_post (inr (JObj fields)) path w
  = (inl (HTTPException 500 "Internal Server Error"), w).
Proof.
  intros Hmodel Hauto Hcfg Hmsgs Hscalar.
  apply (extract_messages_raises_iff messages "") in Hscalar as [e He].
  apply extract_messages_error in He as He'.
  subst e.
  unfold handle_post_request, try_except, bind, lift, ret, raise.
  rewrite Hmodel. cbv beta iota delta [default from_option id].
  rewrite Hauto. unfold get_api_provider. rewrite Hcfg.
  unfold bind, lift, extract_content. rewrite Hmsgs, He. reflexivity.
Qed.

Lemma extract_messages_chat (turns : list (string * string)) (acc : string) :
  extract_messages json_dumps
    (map (fun turn => chat_message (fst turn) (snd turn)) turns) acc
  = inr (acc +:+ concat_all (map snd turns)).
Proof.
  revert acc. induction turns as [|[role text] turns IH]; intros acc.
  - cbn [map extract_messages concat_all foldr]. by rewrite append_nil_r.
  - cbn [map fst snd concat_all foldr]. fold (concat_all (map snd turns)).
    unfold chat_message at 1. cbn [extract_messages].
    change (assoc "content" [("role", JStr role); ("content", JStr text)])
      with (Some (JStr text)).
    cbn [truthy]. destruct (String.eqb text "") eqn:Hempty; cbn [negb].
    + apply String.eqb_eq in Hempty as ->. by rewrite IH.
    + by rewrite IH, append_assoc.
Qed.

(** X21: for a conversation of role/content messages whose contents are
    strings, the text handed to the tokenizer is the contents of all the
    messages, concatenated in the order of the messages; the roles do not
    count and nothing is raised. *)
Theorem extract_content_chat (fields : list (string * json))
    (turns : list (string * string)) :
  assoc "messages" fields
  = Some (JArr (map (fun turn => chat_message (fst turn) (snd turn)) turns)) ->
  extract_content json_dumps fields = inr (concat_all (map snd turns)).
Proof.
  intros Hmsgs. unfold extract_content. rewrite Hmsgs.
  by rewrite extract_messages_chat.
Qed.

End GatewayMore.

(** X22: with an empty model registry, a request for an [auto] model finds
    nothing to iterate over: [api_provider] is never bound, and the request
    is answered with status 500 (not 404 or 429); the limiter and the clock
    are not touched. *)
Theorem auto_without_models_500 (API_PROVIDER : gmap string Provider)
    (clock : nat -> Z) (json_dumps : json -> string)
    (json_loads : string -> exn + json) (utf8_decode : string -> exn + string)
    (encode_len : string -> exn + Z) (exn_str : exn -> string)
    (upstream_post : string -> string -> json -> post_outcome)
    (upstream_stream : string -> string -> json -> stream_outcome)
    (fields : list (string * json)) (m path : string) (w : World) :
  assoc "model" fields = Some (JStr m) ->
  String.prefix "auto" m = true ->
  handle_post_request API_PROVIDER [] clock json_dumps json_loads utf8_decode
    encode_len exn_str upstream_post upstream_stream (inr (JObj fields)) path w
  = (inl (HTTPException 500 "Internal Server Error"), w).
Proof.
  intros Hmodel Hauto.
  unfold handle_post_request, try_except, bind, lift, ret, raise.
  rewrite Hmodel. cbv beta iota delta [default from_option id].
  rewrite Hauto. reflexivity.
Qed.

(** ** The interaction log *)

Lemma backup_file_inj (i j : nat) : backup_file i = backup_file j -> i = j.
Proof.
  unfold backup_file. intros H.
  apply (inj (String.append base_log_file)) in H.
  apply (inj (String.append ".")) in H.
  by apply (inj pretty) in H.
Qed.

Lemma backup_file_not_base (i : nat) : backup_file i <> base_log_file.
Proof.
  unfold backup_file. intros H.
  rewrite <- (append_nil_r base_log_file) in H at 2.
  apply (inj (String.append base_log_file)) in H.
  change ("." +:+ pretty i)
    with (String (Ascii.ascii_of_nat 46) (pretty i)) in H.
  discriminate H.
Qed.

Lemma rotate_one_source (count i : nat) (fs : gmap string string) :
  rotate_one count i fs !! backup_file i = None.
Proof.
  unfold rotate_one. destruct (fs !! backup_file i) eqn:Hi; [|exact Hi].
  destruct (Nat.eqb i (count - 1)); [apply lookup_delete_eq|].
  rewrite lookup_insert_ne, lookup_delete_eq; [reflexivity|].
  intros H. apply backup_file_inj in H. lia.
Qed.

Lemma rotate_one_other (count i : nat) (fs : gmap string string) (f : string) :
  f <> backup_file i ->
  ((i <> count - 1)%nat -> f <> backup_file (i + 1)) ->
  rotate_one count i fs !! f = fs !! f.
Proof.
  intros Hi Hnext. unfold rotate_one.
  destruct (fs !! backup_file i); [|reflexivity].
  destruct (Nat.eqb_spec i (count - 1)) as [Hlast|Hlast].
  - by rewrite lookup_delete_ne by (by apply not_eq_sym).
  - rewrite lookup_insert_ne by (apply not_eq_sym; auto).
    by rewrite lookup_delete_ne by (by apply not_eq_sym).
Qed.

Lemma rotate_one_target (count i : nat) (fs : gmap string string) :
  (i <> count - 1)%nat ->
  fs !! backup_file (i + 1) = None ->
  rotate_one count i fs !! backup_file (i + 1) = fs !! backup_file i.
Proof.
  intros Hlast Hfree. unfold rotate_one.
  destruct (fs !! backup_file i) eqn:Hi; [|exact Hfree].
  destruct (Nat.eqb_spec i (count - 1)); [done|].
  apply lookup_insert_eq.
Qed.

(** The rotation loop from index [i] down to 1. *)
Lemma rotate_from_spec (count i : nat) (fs : gmap string string) :
  (S i <= count)%nat ->
  ((i < count - 1)%nat -> fs !! backup_file (i + 1) = None) ->
  (forall j, (1 <= j <= i)%nat -> (j < count - 1)%nat ->
     rotate_from count i fs !! backup_file (j + 1) = fs !! backup_file j)
  /\ ((1 <= i)%nat -> rotate_from count i fs !! backup_file 1 = None)
  /\ (forall f,
        (forall j, (1 <= j <= i)%nat -> f <> backup_file j) ->
        (forall j, (1 <= j <= i)%nat -> (j < count - 1)%nat ->
           f <> backup_file (j + 1)) ->
        rotate_from count i fs !! f = fs !! f).
Proof.
  revert fs. induction i as [|i IH]; intros fs Hcount Hfree.
  { split; [intros j Hj; lia|]. split; [lia | reflexivity]. }
  cbn [rotate_from].
  set (fs1 := rotate_one count (S i) fs).
  assert (Hfree1 : (i < count - 1)%nat -> fs1 !! backup_file (i + 1) = None).
  { intros _. replace (i + 1)%nat with (S i) by lia.
    apply rotate_one_source. }
  destruct (IH fs1 ltac:(lia) Hfree1) as (Hshift & Hfirst & Hframe).
  split; [|split].
  - intros j Hj Hlt. destruct (decide (j = S i)) as [->|Hne].
    + rewrite Hframe.
      * apply rotate_one_target; [lia | apply Hfree; lia].
      * intros j' Hj' H. apply backup_file_inj in H. lia.
      * intros j' Hj' _ H. apply backup_file_inj in H. lia.
    + rewrite Hshift by lia.
      apply rotate_one_other.
      * intros H. apply backup_file_inj in H. lia.
      * intros _ H. apply backup_file_inj in H. lia.
  - intros _. destruct i as [|i'].
    + apply rotate_one_source.
    + apply Hfirst. lia.
  - intros f Hsrc Htgt. rewrite Hframe.
    + apply rotate_one_other; [apply Hsrc; lia|].
      intros Hlast. apply Htgt; lia.
    + intros j Hj. apply Hsrc. lia.
    + intros j Hj Hlt. apply Htgt; lia.
Qed.

Lemma rotate_spec (fs : gmap string string) (old : string) :
  fs !! base_log_file = Some old ->
  rotate fs !! base_log_file = None
  /\ rotate fs !! backup_file 1 = Some old
  /\ (forall j, (1 <= j <= 8)%nat ->
        rotate fs !! backup_file (j + 1) = fs !! backup_file j)
  /\ (forall f, f <> base_log_file -> not_a_backup f ->
        rotate fs !! f = fs !! f).
Proof.
  intros Hold. unfold rotate.
  destruct (rotate_from_spec max_backup_count (max_backup_count - 1) fs)
    as (Hshift & Hfirst & Hframe).
  { unfold max_backup_count. lia. }
  { unfold max_backup_count. lia. }
  unfold max_backup_count in *. cbn [Nat.sub] in *.
  assert (Hbase : rotate_from 10 9 fs !! base_log_file = Some old).
  { rewrite Hframe; [exact Hold| |];
      intros j Hj; intros; apply not_eq_sym, backup_file_not_base. }
  rewrite Hbase. split; [|split; [|split]].
  - rewrite lookup_insert_ne by apply backup_file_not_base.
    apply lookup_delete_eq.
  - apply lookup_insert_eq.
  - intros j Hj.
    rewrite lookup_insert_ne
      by (intros H; apply backup_file_inj in H; lia).
    rewrite lookup_delete_ne by apply not_eq_sym, backup_file_not_base.
    apply Hshift; lia.
  - intros f Hbasef Hf.
    rewrite lookup_insert_ne by (apply not_eq_sym, Hf; lia).
    rewrite lookup_delete_ne by (by apply not_eq_sym).
    apply Hframe; intros j Hj; intros; apply Hf; lia.
Qed.



(** X25: [log_interaction] touches the active file and the backups 1 to 9
    and nothing else in the directory, whether it rotates or not; in
    particular a backup 10 is never written: the loop removes backup 9
    instead of renaming it. *)
Theorem log_interaction_frame (render str_of : json -> string)
    (timestamp log_type : string) (content : json) (fs : gmap string string)
    (f : string) :
  f <> base_log_file ->
  not_a_backup f ->
  log_interaction render str_of timestamp log_type content fs !! f = fs !! f.
Proof.
  intros Hbase Hf. unfold log_interaction.
  rewrite lookup_insert_ne by (by apply not_eq_sym).
  destruct (fs !! base_log_file) as [old|] eqn:Hold; [|reflexivity].
  destruct (max_file_size <=? Z.of_nat (String.length old)); [|reflexivity].
  destruct (rotate_spec fs old Hold) as (_ & _ & _ & Hframe).
  by apply Hframe.
Qed.

(** ** The error log endpoint *)

Lemma scan_error_lines_spec (lines : list string) (i : nat)
    (acc : list string) :
  (length acc < 10)%nat ->
  scan_error_lines lines i acc
  = (acc ++ take (10 - length acc)
              (map (error_context lines)
                 (rev (List.filter
                         (fun k => match lines !! k with
                                   | Some line => is_error_line line
                                   | None => false
                                   end) (seq 0 i)))))%list.
Proof.
  revert acc. induction i as [|i IH]; intros acc Hacc.
  { simpl. rewrite take_nil. by rewrite app_nil_r. }
  cbn [scan_error_lines]. rewrite seq_S, List.filter_app. cbn [List.filter].
  rewrite Nat.add_0_l.
  destruct (lines !! i) as [line|]; [destruct (is_error_line line)|].
  - rewrite rev_app_distr. cbn [rev app map].
    destruct (Nat.leb_spec 10 (length (acc ++ [error_context lines i])))
      as [Hfull|Hroom]; rewrite length_app in *; cbn [length] in *.
    + replace (10 - length acc)%nat with 1%nat by lia.
      cbn [take]. by rewrite take_0.
    + rewrite IH by (rewrite length_app; cbn [length]; lia).
      rewrite length_app. cbn [length].
      replace (10 - length acc)%nat with (S (10 - (length acc + 1))) by lia.
      cbn [take]. by rewrite <- app_assoc.
  - cbn [app]. rewrite app_nil_r. by apply IH.
  - cbn [app]. rewrite app_nil_r. by apply IH.
Qed.

(** X26: [get_error_logs] answers with the windows of the last ten error
    lines of the log (of all of them if there are fewer), oldest first: one
    window per line that contains "- ERROR", made of that line and the two
    lines before it. *)
Theorem get_error_logs_spec (lines : list string) :
  get_error_logs lines
  = map (error_context lines) (last_n 10 (error_indices lines))
  /\ length (get_error_logs lines)
     = Nat.min 10 (length (error_indices lines)).
Proof.
  assert (Hlogs : get_error_logs lines
                  = map (error_context lines) (last_n 10 (error_indices lines))).
  { unfold get_error_logs, last_n, error_indices.
    rewrite scan_error_lines_spec by (cbn [length]; lia).
    cbn [app length]. rewrite Nat.sub_0_r.
    rewrite firstn_map, firstn_rev, map_rev. apply rev_involutive. }
  split; [exact Hlogs|].
  rewrite Hlogs, length_map. unfold last_n. rewrite length_drop. lia.
Qed.

(** ** The health probe *)

(** X27: the health probe reports, it does not fail.  For a configured
    provider with a base URL and a non-empty model, whatever status the
    upstream answers the probe with, [health_check] returns a JSON answer
    (HTTP 200) that repeats the provider and the model; its [status] is
    "healthy" exactly when the upstream status is 200, and otherwise the
    answer carries the upstream status and body under [error]. *)
Theorem health_check_verdict (API_PROVIDER : gmap string Provider)
    (str_of : json -> string) (exn_str : exn -> string)
    (probe : string -> option string -> json -> post_outcome)
    (response_time : Z) (data : list (string * json)) (name : string)
    (model : json) (cfg : Provider) (status : Z) (text : string) :
  assoc "provider" data = Some (JStr name) ->
  name <> "" ->
  assoc "model" data = Some model ->
  truthy model = true ->
  API_PROVIDER !! name = Some cfg ->
  base_url cfg <> "" ->
  (forall payload, probe (base_url cfg) (api_key cfg) payload
                   = PostResponse status text) ->
  exists answer,
    health_check API_PROVIDER str_of exn_str probe response_time
      (inr (JObj data)) = inr (JObj answer)
    /\ assoc "provider" answer = Some (JStr name)
    /\ assoc "model" answer = Some model
    /\ assoc "status" answer
       = Some (JStr (if status =? 200 then "healthy" else "unhealthy"))
    /\ assoc "error" answer
       = (if status =? 200 then None
          else Some (JStr ("HTTP " +:+ pretty status +:+ ": " +:+ text))).
Proof.
  intros Hprov Hname Hmodel Htruthy Hcfg Hurl Hprobe.
  unfold health_check. rewrite Hprov, Hmodel.
  cbv beta iota delta [default from_option id]. cbn [truthy].
  apply String.eqb_neq in Hname, Hurl. rewrite Hname, Htruthy. cbn [negb].
  rewrite Hcfg, Hurl, Hprobe.
  destruct (status =? 200); eexists; (split; [reflexivity|]);
    repeat split.
Qed.

(** X28: the order of the checks of the health probe.  A missing or empty
    provider name is refused with 400 before the model is looked at; with a
    provider name, a missing or empty model is refused with 400 before the
    provider is looked up; with both, an unknown provider is refused with
    404; and a body that cannot be decoded leaves the handler with an
    exception that is not an [HTTPException]. *)
Theorem health_check_validation (API_PROVIDER : gmap string Provider)
    (str_of : json -> string) (exn_str : exn -> string)
    (probe : string -> option string -> json -> post_outcome)
    (response_time : Z) (data : list (string * json)) :
  let check := health_check API_PROVIDER str_of exn_str probe response_time in
  (truthy (default JNull (assoc "provider" data)) = false ->
   check (inr (JObj data))
   = inl (HTTPException 400 "Provider name is required"))
  /\ (truthy (default JNull (assoc "provider" data)) = true ->
      truthy (default JNull (assoc "model" data)) = false ->
      check (inr (JObj data))
      = inl (HTTPException 400 "Model name is required"))
  /\ (forall name,
        assoc "provider" data = Some (JStr name) ->
        name <> "" ->
        truthy (default JNull (assoc "model" data)) = true ->
        API_PROVIDER !! name = None ->
        check (inr (JObj data))
        = inl (HTTPException 404 ("Provider '" +:+ name +:+ "' not found")))
  /\ (forall e, exists e',
        check (inl e) = inl e' /\ is_HTTPException e' = false).
Proof.
  intros check. subst check. unfold health_check.
  split; [|split; [|split]].
  - intros ->. reflexivity.
  - intros -> ->. reflexivity.
  - intros name Hprov Hname Hmodel Hnone. rewrite Hprov in *.
    cbv beta iota delta [default from_option id] in *. cbn [truthy].
    apply String.eqb_neq in Hname. rewrite Hname. cbn [negb].
    fold (default JNull (assoc "model" data)). rewrite Hmodel. cbn [negb].
    by rewrite Hnone.
  - intros e. by eexists.
Qed.

(** ** The further properties at concrete inputs *)

(** A request of 250 tokens against tpr = 100. *)
Lemma check_limit_tpr_witness :
  fst (fst (check_limit committed_300 "P1"
              (mkLimits None None (Some 100) None) 250 1)) = false.
Proof.
  apply (check_limit_tpr committed_300 "P1"
           (mkLimits None None (Some 100) None) 100 250 1);
    [reflexivity | lia].
Defined.

(** One request committed against rpd = 1, then the daily reset. *)
Lemma reset_daily_counts_reopens_witness :
  fst (check_limit (reset_daily_counts committed_300) "P1"
         (mkLimits None None None (Some 1)) 0 1)
  = fst (check_limit committed_300 "P1" (mkLimits None None None None) 0 1).
Proof.
  apply (reset_daily_counts_reopens committed_300 "P1"
           (mkLimits None None None (Some 1)) 1 0 1);
    [reflexivity | lia].
Defined.

(** A window of three entries, the first of them two minutes old. *)
Lemma popleft_expired_ordered_witness :
  popleft_expired (timedelta_minutes 2)
    [(0, 1); (timedelta_minutes 1, 1); (timedelta_minutes 2, 1)]
  = List.filter (fresh (timedelta_minutes 2))
      [(0, 1); (timedelta_minutes 1, 1); (timedelta_minutes 2, 1)].
Proof.
  apply (popleft_expired_ordered (timedelta_minutes 2)
           [(0, 1); (timedelta_minutes 1, 1); (timedelta_minutes 2, 1)]).
  unfold ordered, timedelta_minutes.
  repeat split; repeat constructor; simpl; lia.
Defined.

(** A snapshot at time 1, an admission at time 2. *)
Lemma get_usage_stats_transparent_witness :
  fst (check_limit (snd (get_usage_stats demo_API_PROVIDER committed_300 1))
         "P1" (mkLimits (Some 1) None None None) 0 2)
  = fst (check_limit committed_300 "P1" (mkLimits (Some 1) None None None) 0 2).
Proof.
  apply (get_usage_stats_transparent demo_API_PROVIDER committed_300 1 2 "P1"
           (mkLimits (Some 1) None None None) 0).
  lia.
Defined.

(** A second error one minute after the first. *)
Lemma increment_error_then_limited_witness :
  fst (is_error_limited
         (snd (increment_error penalised "P1" (timedelta_minutes 1)))
         "P1" (timedelta_minutes 1))
  = (true, 20).
Proof.
  refine (proj2 (increment_error_then_limited [OpIncrementError "P1" 0] "P1"
                   (timedelta_minutes 1) _)).
  change (Forall (fun e : Z * Z => fst e <= timedelta_minutes 1) [(0, 1)]).
  constructor; [unfold timedelta_minutes; simpl; lia | constructor].
Defined.

(** One error, asked about a day later. *)
Lemma is_error_limited_expired_witness :
  fst (is_error_limited penalised "P1" (timedelta_hours 24)) = (false, 0).
Proof.
  refine (proj1 (is_error_limited_expired penalised "P1" (timedelta_hours 24) _)).
  change (Forall (fun e : Z * Z => fst e <= timedelta_hours 24 - timedelta_hours 24)
            [(0, 1)]).
  constructor; [simpl; lia | constructor].
Defined.

(** A sweep one minute after an error, a question a minute later. *)
Lemma cleanup_error_counters_transparent_witness :
  fst (is_error_limited
         (cleanup_error_counters penalised (timedelta_minutes 1)) "P1"
         (timedelta_minutes 2))
  = fst (is_error_limited penalised "P1" (timedelta_minutes 2)).
Proof.
  refine (proj1 (cleanup_error_counters_transparent penalised
                   (timedelta_minutes 1) (timedelta_minutes 2) "P1" _)).
  unfold timedelta_minutes. lia.
Defined.

(** The bindings [P1; P2] on a new limiter. *)
Lemma select_provider_accounting_witness :
  exists r w',
    select_provider demo_API_PROVIDER demo_clock
      [("P1", mkBinding None None); ("P2", mkBinding None None)] 7 demo_world
    = (inr r, w')
    /\ match r with
       | Some p =>
           (exists b, In (p, b) [("P1", mkBinding None None);
                                 ("P2", mkBinding None None)]
                      /\ enable b <> Some false)
           /\ forall q, rpd_of w' q
                        = if decide (p = q) then rpd_of demo_world q + 1
                          else rpd_of demo_world q
       | None => forall q, rpd_of w' q = rpd_of demo_world q
       end.
Proof.
  apply (select_provider_accounting demo_API_PROVIDER demo_clock
           [("P1", mkBinding None None); ("P2", mkBinding None None)] 7
           demo_world).
  repeat constructor; simpl; eauto.
Defined.

(** A disabled binding to [P1] before an enabled binding to [P2]. *)
Lemma select_provider_disabled_witness :
  select_provider demo_API_PROVIDER demo_clock
    [("P1", mkBinding (Some false) None); ("P2", mkBinding None None)] 7
    demo_world
  = select_provider demo_API_PROVIDER demo_clock
      [("P2", mkBinding None None)] 7 demo_world.
Proof.
  apply (select_provider_disabled demo_API_PROVIDER demo_clock "P1"
           (mkBinding (Some false) None) [("P2", mkBinding None None)] 7
           demo_world).
  reflexivity.
Defined.






(** The upstream refusing a stream with 429. *)
Lemma streaming_upstream_error_witness :
  length (fst (fst (generate_stream_response demo_API_PROVIDER demo_clock
                      quiet_dumps demo_json_loads demo_utf8_decode quiet_str
                      refused_stream "P1" "chat/completions" JNull 200
                      demo_world))) = 1%nat.
Proof.
  refine (proj1 (streaming_upstream_error demo_API_PROVIDER demo_clock
                   quiet_dumps demo_json_loads demo_utf8_decode quiet_str
                   refused_stream "P1" "chat/completions" JNull P1_cfg 429
                   ["too many requests"] demo_world _ _ _));
    [reflexivity | reflexivity | lia].
Defined.

(** A request for model [A] whose list of messages holds a [null]. *)
Lemma malformed_message_500_witness :
  demo_handle demo_MODEL_CONFIG echo_model_post silent_stream
    (inr (JObj [("model", JStr "A"); ("messages", JArr [JNull])]))
    "chat/completions" demo_world
  = (inl (HTTPException 500 "Internal Server Error"), demo_world).
Proof.
  apply (malformed_message_500 demo_API_PROVIDER demo_MODEL_CONFIG demo_clock
           quiet_dumps demo_json_loads demo_utf8_decode demo_encode_len
           quiet_str echo_model_post silent_stream
           [("model", JStr "A"); ("messages", JArr [JNull])] "A"
           "chat/completions" [("P1", mkBinding None None)] [JNull] demo_world);
    try reflexivity.
  constructor. exact I.
Defined.

(** A conversation of two messages. *)
Lemma extract_content_chat_witness :
  extract_content quiet_dumps
    [("model", JStr "A");
     ("messages", JArr [chat_message "system" "Be brief. ";
                        chat_message "user" "Hello"])]
  = inr "Be brief. Hello".
Proof.
  apply (extract_content_chat quiet_dumps
           [("model", JStr "A");
            ("messages", JArr [chat_message "system" "Be brief. ";
                               chat_message "user" "Hello"])]
           [("system", "Be brief. "); ("user", "Hello")]).
  reflexivity.
Defined.

(** An [auto] request against an empty registry. *)
Lemma auto_without_models_500_witness :
  demo_handle [] echo_model_post silent_stream auto_request "chat/completions"
    demo_world
  = (inl (HTTPException 500 "Internal Server Error"), demo_world).
Proof.
  apply (auto_without_models_500 demo_API_PROVIDER demo_clock quiet_dumps
           demo_json_loads demo_utf8_decode demo_encode_len quiet_str
           echo_model_post silent_stream [("model", JStr "auto")] "auto"
           "chat/completions" demo_world);
    reflexivity.
Defined.



(** The tenth backup of that directory stays absent. *)
Lemma log_interaction_frame_witness :
  log_interaction quiet_dumps quiet_dumps "2024-01-01 00:00:00" "REQUEST"
    (JStr "ping") full_directory !! backup_file 10
  = full_directory !! backup_file 10.
Proof.
  apply (log_interaction_frame quiet_dumps quiet_dumps "2024-01-01 00:00:00"
           "REQUEST" (JStr "ping") full_directory (backup_file 10)).
  - apply backup_file_not_base.
  - intros j Hj H. apply backup_file_inj in H. lia.
Defined.

(** A probe of [P1] that the upstream answers with 503. *)
Lemma health_check_verdict_witness :
  exists answer,
    health_check demo_API_PROVIDER quiet_dumps quiet_str
      (fun _ _ _ => PostResponse 503 "down") 12
      (inr (JObj [("provider", JStr "P1"); ("model", JStr "A")]))
    = inr (JObj answer)
    /\ assoc "status" answer = Some (JStr "unhealthy").
Proof.
  destruct (health_check_verdict demo_API_PROVIDER quiet_dumps quiet_str
              (fun _ _ _ => PostResponse 503 "down") 12
              [("provider", JStr "P1"); ("model", JStr "A")] "P1" (JStr "A")
              P1_cfg 503 "down")
    as (answer & Hanswer & _ & _ & Hstatus & _);
    try reflexivity; try discriminate.
  exists answer. split; [exact Hanswer | exact Hstatus].
Defined.

(** ** Histories with a clock that does not go back *)

Lemma not_after_later (t t' : Z) (q : list (Z * Z)) :
  t <= t' -> not_after t q -> not_after t' q.
Proof.
  intros Hle Hq. unfold not_after in *.
  eapply Forall_impl; [exact Hq|]. intros e He. simpl in He. lia.
Qed.

Lemma popleft_expired_ordered_kept (now : Z) (q : list (Z * Z)) :
  ordered q -> ordered (popleft_expired now q).
Proof.
  induction q as [|[ts a] q IH]; intros Hord; [exact I|].
  cbn [popleft_expired].
  destruct (timedelta_minutes 1 <? now - ts); [apply IH, Hord | exact Hord].
Qed.

Lemma popleft_expired_not_after (t now : Z) (q : list (Z * Z)) :
  not_after t q -> not_after t (popleft_expired now q).
Proof.
  intros Hq. destruct (popleft_expired_dropped now q) as (dropped & Heq & _).
  unfold not_after in *. rewrite Heq in Hq.
  by apply Forall_app in Hq as [_ Hq].
Qed.

Lemma ordered_snoc (q : list (Z * Z)) (now a : Z) :
  ordered q -> not_after now q -> ordered (q ++ [(now, a)]).
Proof.
  induction q as [|e q IH]; intros Hord Hq.
  - split; [constructor | exact I].
  - destruct Hord as [Hhead Hord]. apply Forall_cons in Hq as [He Hq].
    split; [|by apply IH].
    apply Forall_app. split; [exact Hhead|]. by repeat constructor.
Qed.

Lemma not_after_recent (t now : Z) (evs : list (Z * Z)) :
  not_after t evs -> not_after t (recent_errors now evs).
Proof.
  unfold not_after. rewrite !List.Forall_forall. intros H e He.
  apply H. by apply recent_errors_In in He as [He _].
Qed.

Lemma ledger_of_is_error_limited (self : RateLimiter) (p : string) (now : Z)
    (q : string) :
  ledger_of (snd (is_error_limited self p now)) q = ledger_of self q
  \/ ledger_of (snd (is_error_limited self p now)) q
     = recent_errors now (ledger_of self q).
Proof.
  unfold ledger_of, is_error_limited.
  destruct (error_counters self !! p) as [[|e l]|] eqn:Hp; try by left.
  assert (Hq : default [] (<[p:=recent_errors now (e :: l)]>
                             (error_counters self) !! q)
               = default [] (error_counters self !! q)
               \/ default [] (<[p:=recent_errors now (e :: l)]>
                                (error_counters self) !! q)
                  = recent_errors now (default [] (error_counters self !! q))).
  { rewrite lookup_insert. case_decide; [subst; rewrite Hp; by right | by left]. }
  repeat case_match; exact Hq.
Qed.

Lemma well_timed_later (t t' : Z) (self : RateLimiter) :
  t <= t' -> well_timed t self -> well_timed t' self.
Proof.
  intros Hle Hself p. destruct (Hself p) as (H1 & H2 & H3 & H4 & H5).
  eauto 10 using not_after_later.
Qed.

Lemma well_timed_prune (t now : Z) (c : Counter) :
  ordered (rpm c) /\ ordered (tpm c) /\ not_after t (rpm c)
  /\ not_after t (tpm c) ->
  ordered (rpm (prune_counter now c)) /\ ordered (tpm (prune_counter now c))
  /\ not_after t (rpm (prune_counter now c))
  /\ not_after t (tpm (prune_counter now c)).
Proof.
  intros (H1 & H2 & H3 & H4). unfold prune_counter. cbn [rpm tpm].
  auto using popleft_expired_ordered_kept, popleft_expired_not_after.
Qed.

Lemma well_timed_step (t : Z) (self : RateLimiter) (o : op) :
  well_timed t self ->
  t <= default t (op_time o) ->
  well_timed (default t (op_time o)) (step self o).
Proof.
  intros Hself Hle.
  pose proof (well_timed_later t _ self Hle Hself) as Hnow.
  intros q. destruct (Hnow q) as (H1 & H2 & H3 & H4 & H5).
  destruct o as [p lim tk now|p tk now| |p now|p now|now|cfg now| ];
    cbn [step op_time default from_option id] in *.
  - rewrite counter_of_check_limit.
    replace (ledger_of (snd (check_limit self p lim tk now)) q)
      with (ledger_of self q) by reflexivity.
    case_decide; [subst|by repeat split].
    destruct (well_timed_prune now now (counter_of self q)) as (?&?&?&?);
      by repeat split.
  - destruct (increment self p tk now) as [e|self'] eqn:Hinc;
      [by repeat split|].
    destruct (counter_of_increment _ _ _ _ _ Hinc) as (_ & Herr & Hq).
    rewrite Hq. unfold ledger_of. rewrite Herr. fold (ledger_of self q).
    case_decide; [subst|by repeat split].
    cbn [rpm tpm].
    repeat split; try (by apply ordered_snoc); try exact H5;
      (apply Forall_app; split; [assumption | by repeat constructor]).
  - destruct (reset_daily_counts_counter self q) as (-> & _ & Herr).
    unfold ledger_of. rewrite Herr. by repeat split.
  - replace (counter_of (snd (increment_error self p now)) q)
      with (counter_of self q) by reflexivity.
    repeat split; try assumption.
    unfold ledger_of, increment_error. cbn [snd error_counters].
    rewrite lookup_insert. case_decide; [subst|exact H5].
    cbn [default from_option id].
    apply Forall_app. split; [|by repeat constructor].
    apply not_after_recent. unfold ledger_of in H5.
    by destruct (error_counters self !! q).
  - unfold counter_of at 1 2 3 4. rewrite counters_is_error_limited.
    repeat split; try assumption.
    destruct (ledger_of_is_error_limited self p now q) as [-> | ->];
      [exact H5 | by apply not_after_recent].
  - replace (counter_of (cleanup_error_counters self now) q)
      with (counter_of self q) by reflexivity.
    repeat split; try assumption.
    replace (ledger_of (cleanup_error_counters self now) q)
      with (recent_errors now (ledger_of self q));
      [by apply not_after_recent|].
    unfold ledger_of, cleanup_error_counters. cbn [error_counters].
    rewrite lookup_omap.
    destruct (error_counters self !! q) as [evs|]; [|reflexivity].
    cbn. by destruct (recent_errors now evs).
  - rewrite counter_of_get_usage_stats.
    replace (ledger_of (snd (get_usage_stats cfg self now)) q)
      with (ledger_of self q) by reflexivity.
    destruct (well_timed_prune now now (counter_of self q)) as (?&?&?&?);
      by repeat split.
  - unfold counter_of, ledger_of, reset_all_limits.
    cbn [counters error_counters]. rewrite lookup_fmap, lookup_empty.
    destruct (counters self !! q); cbn; repeat split; constructor.
Qed.

Lemma well_timed_run (ops : list op) (t : Z) (self : RateLimiter) :
  well_timed t self ->
  nondecreasing t ops ->
  well_timed (end_time t ops) (run ops self).
Proof.
  revert t self. induction ops as [|o ops IH]; intros t self Hself Hmono;
    [exact Hself|].
  cbn [nondecreasing end_time] in *. unfold run. cbn [foldl].
  apply IH.
  - apply well_timed_step; [exact Hself|].
    destruct (op_time o); cbn; [tauto | lia].
  - destruct (op_time o); cbn; tauto.
Qed.

(** X29: with a clock that does not go back, the windows stay in order.
    After any history of calls whose clock readings never decrease, each
    window of each provider is ordered by timestamp and nothing in the
    windows or in the error ledger is stamped later than the last reading;
    pruning such a window at any time therefore leaves exactly its entries
    of the last minute. *)
Theorem windows_stay_ordered (ops : list op) (t0 now : Z) (p : string) :
  nondecreasing t0 ops ->
  let self := run ops RateLimiter_init in
  let c := counter_of self p in
  ordered (rpm c) /\ ordered (tpm c)
  /\ not_after (end_time t0 ops) (rpm c)
  /\ not_after (end_time t0 ops) (tpm c)
  /\ not_after (end_time t0 ops) (ledger_of self p)
  /\ popleft_expired now (rpm c) = List.filter (fresh now) (rpm c)
  /\ popleft_expired now (tpm c) = List.filter (fresh now) (tpm c).
Proof.
  intros Hmono self c.
  assert (Hinit : well_timed t0 RateLimiter_init).
  { intros q. repeat split; constructor. }
  destruct (well_timed_run ops t0 RateLimiter_init Hinit Hmono p)
    as (H1 & H2 & H3 & H4 & H5).
  repeat split; try assumption; by apply popleft_expired_filter.
Qed.

(** An admission, a commit, an error and a later admission. *)
Lemma windows_stay_ordered_witness :
  ordered (rpm (counter_of
                  (run [OpCheckLimit "P1" no_limits 5 0; OpIncrement "P1" 5 1;
                        OpIncrementError "P1" 2; OpCheckLimit "P1" no_limits 5 3;
                        OpIncrement "P1" 5 3] RateLimiter_init) "P1")).
Proof.
  refine (proj1 (windows_stay_ordered
                   [OpCheckLimit "P1" no_limits 5 0; OpIncrement "P1" 5 1;
                    OpIncrementError "P1" 2; OpCheckLimit "P1" no_limits 5 3;
                    OpIncrement "P1" 5 3] 0 3 "P1" _)).
  cbn. lia.
Defined.
